(** * devices/create_driver_table.py: the driver/kernel-version table

    A shallow embedding of the script that scans the EtherCAT [devices]
    directory for files named [<prefix>-<major>.<minor>-ethercat.c] and
    renders which driver exists for which kernel version.

    Python values are embedded as follows.
    - [str] is [string]; a character is a code point below 256, so that
      [ascii] holds it.  On this range the class [\d] of the [re] module is
      exactly the ten characters [0]..[9].  Module [unicode] embeds the
      pattern and [filter_versions] a second time, on strings of code
      points of any size, where [\d] and [int] know the decimal digits of
      every script.
    - [int] is [N]: every integer of the script is parsed from a run of
      decimal digits.
    - [set] is [gset], [dict] is [gmap]: the script never depends on the
      iteration order of either (every iteration is followed by a sort, or
      only adds to a set).
    - a raised exception is the [Raise] case of [result]. *)

From stdpp Require Import base option list sorting strings pretty gmap.
From Stdlib Require Import Ascii String NArith.

Local Open Scope N_scope.

(** ** Exceptions *)

Inductive error :=
  | StopIteration   (* [next] on a generator that yields nothing *)
  | IndexError      (* [match.group] of a group the pattern does not have *)
  | NotModelled.    (* not a Python exception: the pattern uses [re] syntax
                       that the embedding of [re] below does not cover *)

Inductive result (A : Type) :=
  | Ok (a : A)
  | Raise (e : error).
Arguments Ok {A} a.
Arguments Raise {A} e.

#[global] Instance result_ret : MRet result := @Ok.
#[global] Instance result_bind : MBind result := λ A B f r,
  match r with Ok a => f a | Raise e => Raise e end.

#[global] Instance error_eq_dec : EqDecision error.
Proof. solve_decision. Defined.

#[global] Instance result_eq_dec `{EqDecision A} : EqDecision (result A).
Proof. solve_decision. Defined.

(** ** The part of Python's [re] module that the script uses *)

Module re.

(** The script builds one pattern,
    [^<prefix>-([\d]+)\.([\d]+)-ethercat\.<ext>$].  The embedding covers
    the syntax of that pattern and, so that a prefix can be told apart
    from a literal, the wildcard [.]:
    - an ordinary character matches itself;
    - [\c] for a [c] that is no ASCII letter or digit matches [c];
    - [.] matches any character but a newline;
    - [([\d]+)] is a capturing group of one or more digits, greedy;
    - [^] is accepted as the first character and [$] as the last.
    [compile] answers [None] on anything else. *)
Inductive item :=
  | Lit (c : ascii)
  | AnyChar
  | Digits
  | Eol.

Definition pattern := list item.

Definition newline : ascii := ascii_of_N 10.

Definition backslash : ascii := ascii_of_N 92.

Definition code (c : ascii) : N := N_of_ascii c.

Definition between (lo hi : ascii) (c : ascii) : bool :=
  (code lo <=? code c) && (code c <=? code hi).

Definition is_digit (c : ascii) : bool := between "0" "9" c.

Definition is_alnum (c : ascii) : bool :=
  is_digit c || between "A" "Z" c || between "a" "z" c.

(** Characters with a meaning of their own in a pattern. *)
Definition is_special (c : ascii) : bool :=
  existsb (Ascii.eqb c)
    [ "."; "^"; "$"; "*"; "+"; "?"; "{"; "}"; "["; "]"; backslash; "|";
      "("; ")" ]%char.

Fixpoint lex (s : string) : option pattern :=
  match s with
  | EmptyString => Some []
  | String c r =>
    if Ascii.eqb c "$" then
      match r with EmptyString => Some [Eol] | _ => None end
    else if Ascii.eqb c "." then cons AnyChar <$> lex r
    else if Ascii.eqb c backslash then
      match r with
      | String e r' => if is_alnum e then None else cons (Lit e) <$> lex r'
      | EmptyString => None
      end
    else if Ascii.eqb c "(" then
      match r with
      | String c1 (String c2 (String c3 (String c4 (String c5 (String c6 r'))))) =>
        if String.eqb (String c1 (String c2 (String c3 (String c4
                        (String c5 (String c6 EmptyString)))))) "[\d]+)"
        then cons Digits <$> lex r' else None
      | _ => None
      end
    else if is_special c then None
    else cons (Lit c) <$> lex r
  end.

Definition compile (s : string) : option pattern :=
  match s with
  | String c r => if Ascii.eqb c "^" then lex r else None
  | EmptyString => None
  end.

(** [$] matches at the end of the string and also just before a newline
    that is the last character of the string. *)
Definition at_end (s : string) : bool :=
  match s with
  | EmptyString => true
  | String c EmptyString => Ascii.eqb c newline
  | _ => false
  end.

(** One or more digits, as many as possible first: after each digit the
    loop tries to take another one, and hands over to the continuation
    [k] only when that fails. [got] is the text taken so far. *)
Fixpoint digits_loop (k : string → string → option (list string))
    (s got : string) : option (list string) :=
  match s with
  | String a s' =>
    if is_digit a then
      let got' := got +:+ String a EmptyString in
      match digits_loop k s' got' with
      | Some r => Some r
      | None => k s' got'
      end
    else None
  | EmptyString => None
  end.

(** Backtracking matcher.  [groups] collects the text of the groups
    closed so far. *)
Fixpoint exec (p : pattern) (s : string) (groups : list string)
    : option (list string) :=
  match p with
  | [] => Some groups
  | Lit c :: p' =>
    match s with
    | String a s' => if Ascii.eqb a c then exec p' s' groups else None
    | EmptyString => None
    end
  | AnyChar :: p' =>
    match s with
    | String a s' => if Ascii.eqb a newline then None else exec p' s' groups
    | EmptyString => None
    end
  | Eol :: p' => if at_end s then exec p' s groups else None
  | Digits :: p' =>
    digits_loop (λ s' got, exec p' s' (groups ++ [got])) s EmptyString
  end.

(** [rex.match(s)]: the pattern is tried at the start of [s] only. *)
Definition match_ (p : pattern) (s : string) : option (list string) :=
  exec p s [].

(** [m.group(1, 2)] *)
Definition group_1_2 (m : list string) : result (string * string) :=
  match m with
  | g1 :: g2 :: _ => Ok (g1, g2)
  | _ => Raise IndexError
  end.

End re.

(** [int(s)] for a run of decimal digits [s], of any length (the limit
    that CPython puts on the number of digits, 4300 unless configured
    otherwise, is far above the 255 bytes of a file name and is left out). *)
Definition int (s : string) : N :=
  foldl (λ acc c, 10 * acc + (re.code c - 48)) 0 (list_ascii_of_string s).

(** ** The script *)

Definition KernelVersion : Type := N * N.

Definition compile_regex (prefix file_extension : string) : result re.pattern :=
  match re.compile ("^" +:+ prefix +:+ "-([\d]+)\.([\d]+)-ethercat\."
                        +:+ file_extension +:+ "$") with
  | Some rex => Ok rex
  | None => Raise NotModelled
  end.

Fixpoint filter_loop (rex : re.pattern) (file_list : list string)
    (ans : gset KernelVersion) : result (gset KernelVersion) :=
  match file_list with
  | [] => Ok ans
  | file :: rest =>
    match re.match_ rex file with
    | None => filter_loop rex rest ans
    | Some m =>
      '(maj, min) ← re.group_1_2 m;
      filter_loop rex rest ({[ (int maj, int min) ]} ∪ ans)
    end
  end.

Definition filter_versions (file_list : list string)
    (prefix file_extension : string) : result (gset KernelVersion) :=
  rex ← compile_regex prefix file_extension;
  filter_loop rex file_list ∅.

(** *** The catalog *)

Definition DRIVER_MAP : list (string * string * string) :=
  (* (subdir, driver name, file prefix) *)
  [ (".", "8139too", "8139too");
    ("stmmac", "dwmac-intel", "dwmac-intel");
    (".", "e100", "e100");
    ("e1000", "e1000", "e1000_main");
    ("e1000e", "e1000e", "netdev");
    ("genet", "bcmgenet", "bcmgenet");
    ("igb", "igb", "igb_main");
    ("igc", "igc", "igc_main");
    (".", "r8169", "r8169");
    ("r8169", "r8169", "r8169_main");
    ("stmmac", "stmmac-pci", "stmmac_pci") ].

(** [sorted(l)] for a list of strings: Python compares strings code point
    by code point, which is [String.le]. *)
Definition sorted (l : list string) : list string := merge_sort String.le l.

Definition DRIVERS : list string :=
  sorted (elements (list_to_set (C := gset string) ((λ x, x.1.2) <$> DRIVER_MAP))).

(** *** [os.walk] and [os.path.join] *)

(** What [os.scandir] finds in one directory. *)
Record listing := Listing { dirnames : list string; filenames : list string }.

(** A directory tree: the directories that exist and can be listed, by
    path.  [walk] ignores the error of a directory that cannot be listed
    and then yields nothing, so [next(walk(top))] is the first triple
    [(top, dirnames, filenames)] or raises [StopIteration]. *)
Definition next_walk (fs : gmap string listing) (top : string)
    : result (string * list string * list string) :=
  match fs !! top with
  | Some d => Ok (top, dirnames d, filenames d)
  | None => Raise StopIteration
  end.

Fixpoint endswith (c : ascii) (s : string) : bool :=
  match s with
  | EmptyString => false
  | String a EmptyString => Ascii.eqb a c
  | String _ r => endswith c r
  end.

(** [posixpath.join(a, b)] *)
Definition join (a b : string) : string :=
  if String.prefix "/" b then b
  else if String.eqb a "" || endswith "/" a then a +:+ b
  else a +:+ "/" +:+ b.

(** *** [get_all_drivers] *)

Definition add_driver_step (driver : string) (version : KernelVersion)
    (driver_table : gmap KernelVersion (gset string))
    : gmap KernelVersion (gset string) :=
  let driver_table :=
    if decide (version ∈ dom driver_table) then driver_table
    else <[version := ∅]> driver_table in
  alter (λ s, {[driver]} ∪ s) version driver_table.

Definition add_driver (versions : gset KernelVersion) (driver : string)
    (driver_table : gmap KernelVersion (gset string))
    : gmap KernelVersion (gset string) :=
  set_fold (add_driver_step driver) driver_table versions.

Fixpoint scan_entries (fs : gmap string listing) (drivers_dir : string)
    (files : list string) (entries : list (string * string * string))
    (driver_table : gmap KernelVersion (gset string))
    : result (gmap KernelVersion (gset string)) :=
  match entries with
  | [] => Ok driver_table
  | (subdir, driver_name, file_prefix) :: rest =>
    if String.eqb subdir "." then
      versions ← filter_versions files file_prefix "c";
      scan_entries fs drivers_dir files rest
        (add_driver versions driver_name driver_table)
    else
      '(_, _, tmp_files) ← next_walk fs (join drivers_dir subdir);
      versions ← filter_versions tmp_files file_prefix "c";
      scan_entries fs drivers_dir files rest
        (add_driver versions driver_name driver_table)
  end.

Definition get_all_drivers (fs : gmap string listing) (drivers_dir : string)
    : result (gmap KernelVersion (gset string)) :=
  '(_, _, files) ← next_walk fs drivers_dir;
  scan_entries fs drivers_dir files DRIVER_MAP ∅.

(** *** [str.format] *)

Fixpoint repeat_char (c : ascii) (n : nat) : string :=
  match n with
  | O => EmptyString
  | S n' => String c (repeat_char c n')
  end.

Inductive alignment := AlignLeft | AlignRight | AlignCenter.

(** [format(s, fill + align + str(width))] with fill character space: at
    least [width] characters, the text never cut; centring puts the odd
    space on the right. *)
Definition pad (al : alignment) (width : nat) (s : string) : string :=
  let total := (width - String.length s)%nat in
  let left :=
    match al with
    | AlignLeft => O
    | AlignRight => total
    | AlignCenter => (total / 2)%nat
    end in
  repeat_char " " left +:+ s +:+ repeat_char " " (total - left).

(** The three cell formats of [dump_markdown]: [| ], the cell aligned in
    [width] columns, and a space. *)
Definition cell_fmt (al : alignment) (width : nat) (cell : string) : string :=
  "| " +:+ pad al width cell +:+ " ".

(** *** [compute_table] *)

(** Python's order on tuples of two integers. *)
Definition version_le (a b : KernelVersion) : Prop :=
  a.1 < b.1 ∨ (a.1 = b.1 ∧ a.2 ≤ b.2).

#[global] Instance version_le_dec : RelDecision version_le.
Proof. intros a b. unfold version_le. apply _. Defined.

(** [sorted(keys, reverse=True)] *)
Definition sorted_reverse (keys : list KernelVersion) : list KernelVersion :=
  merge_sort (flip version_le) keys.

(** The label of a row: the format [{}.{: <2}] applied to the two
    components of [key]; the minor number is left-aligned in a field of
    width 2, so a one-digit minor number is followed by one space. *)
Definition version_label (key : KernelVersion) : string :=
  pretty key.1 +:+ "." +:+ pad AlignLeft 2 (pretty key.2).

(** [dict_data[key]] is read for keys of [dict_data] only, so the lookup
    cannot raise. *)
Definition parse_row (dict_data : gmap KernelVersion (gset string))
    (key : KernelVersion) : list string :=
  let row_set := default ∅ (dict_data !! key) in
  foldl (λ row driver,
           if decide (driver ∈ row_set) then row ++ ["X"] else row ++ ["-"])
        [] DRIVERS.

Definition compute_table (dict_data : gmap KernelVersion (gset string))
    : list (list string) :=
  let keys := sorted_reverse (map_to_list dict_data).*1 in
  let ans := [ "Kernel" :: DRIVERS ] in
  foldl (λ ans key,
           let c := version_label key in
           ans ++ [ c :: parse_row dict_data key ])
        ans keys.

(** *** [dump_markdown] *)

Definition get_max_width (row : list string) : nat :=
  foldl (λ ans cell,
           if (ans <? String.length cell)%nat then String.length cell else ans)
        O row.

(** [l[0]] *)
Definition first {A} (l : list A) : result A :=
  match l with
  | x :: _ => Ok x
  | [] => Raise IndexError
  end.

Definition nl : string := String re.newline EmptyString.

Fixpoint dump_rows (width : nat) (rows : list (list string)) (ans : string)
    : result string :=
  match rows with
  | [] => Ok ans
  | row :: rest =>
    row0 ← first row;
    let ans := ans +:+ (nl +:+ cell_fmt AlignRight width row0) in
    let ans := foldl (λ ans cell, ans +:+ cell_fmt AlignCenter width cell)
                     ans (tail row) in
    let ans := ans +:+ "|" in
    dump_rows width rest ans
  end.

Definition dump_markdown (table_data : list (list string)) : result string :=
  header ← first table_data;
  let width := get_max_width header in
  header0 ← first header;
  let ans := cell_fmt AlignLeft width header0 in
  let ans := foldl (λ ans cell, ans +:+ cell_fmt AlignCenter width cell)
                   ans (tail header) in
  let ans := ans +:+ ("|" +:+ nl +:+ "|-" +:+ repeat_char "-" width +:+ ":|") in
  let ans := foldl (λ ans _, ans +:+ (":" +:+ repeat_char "-" width +:+ ":|"))
                   ans (seq 0 (List.length header - 1)) in
  dump_rows width (tail table_data) ans.

(** ** A small directory tree used in the examples *)

Definition files_only (l : list string) : listing := Listing [] l.

Definition demo_tree : gmap string listing :=
  list_to_map
    [ ("devices", Listing ["e1000"; "e1000e"; "genet"; "igb"; "igc"; "r8169"; "stmmac"]
                    ["Kbuild.in"; "e100-5.15-ethercat.c"; "e100-5.15-orig.c";
                     "r8169-5.15-ethercat.c"; "8139too-6.1-ethercat.c";
                     "ecdev.h"]);
      ("devices/e1000", files_only ["e1000_main-6.1-ethercat.c"; "e1000_hw-6.1-ethercat.c"]);
      ("devices/e1000e", files_only ["netdev-6.0-ethercat.c"]);
      ("devices/genet", files_only []);
      ("devices/igb", files_only ["igb_main-6.1-ethercat.c"; "igb_main-6.1-orig.c"]);
      ("devices/igc", files_only ["igc_main-6.1-ethercat.c"]);
      ("devices/r8169", files_only ["r8169_main-6.1-ethercat.c"; "r8169_main-5.15-ethercat.c"]);
      ("devices/stmmac", files_only ["dwmac-intel-6.1-ethercat.c"; "stmmac_pci-6.0-ethercat.c"]) ].

(** ** Vocabulary of the statements *)

Fixpoint all_chars (P : ascii → bool) (s : string) : bool :=
  match s with
  | EmptyString => true
  | String c r => P c && all_chars P r
  end.

(** A string without any character that is special in a pattern. *)
Definition plain (s : string) : bool :=
  all_chars (λ c, negb (re.is_special c)) s.

(** A non-empty run of decimal digits. *)
Definition digit_run (s : string) : bool :=
  negb (String.eqb s "") && all_chars re.is_digit s.

(** [file] is [<prefix>-<major>.<minor>-ethercat.<ext>] followed by [rest],
    the two numbers written in decimal, leading zeros allowed. *)
Definition version_name (prefix ext : string) (v : KernelVersion)
    (rest file : string) : Prop :=
  ∃ maj min : string,
    digit_run maj ∧ digit_run min ∧ v = (int maj, int min) ∧
    file = prefix +:+ "-" +:+ maj +:+ "." +:+ min +:+ "-ethercat." +:+ ext +:+ rest.

(** The name matches in full: nothing follows the extension. *)
Definition full_match (prefix ext : string) (v : KernelVersion) (file : string)
    : Prop :=
  version_name prefix ext v "" file.

(** What the compiled pattern accepts: the name in full, or the name
    followed by one newline. *)
Definition py_match (prefix ext : string) (v : KernelVersion) (file : string)
    : Prop :=
  version_name prefix ext v "" file ∨ version_name prefix ext v nl file.

(** The pattern that [compile_regex] builds from a plain prefix and
    extension. *)
Definition lits (s : string) : re.pattern := re.Lit <$> list_ascii_of_string s.

Definition version_pattern (prefix ext : string) : re.pattern :=
  lits prefix ++ re.Lit "-" :: re.Digits :: re.Lit "." :: re.Digits ::
  lits "-ethercat." ++ lits ext ++ [re.Eol].

(** The directory that the scan lists for an entry of the catalog. *)
Definition listed_dir (drivers_dir subdir : string) : string :=
  if String.eqb subdir "." then drivers_dir else join drivers_dir subdir.

(** The entry finds version [v]: the directory it lists holds a file that
    the pattern of its prefix accepts for [v]. *)
Definition finds (fs : gmap string listing) (drivers_dir : string)
    (entry : string * string * string) (v : KernelVersion) : Prop :=
  ∃ d file, fs !! listed_dir drivers_dir entry.1.1 = Some d ∧
            file ∈ filenames d ∧ py_match entry.2 "c" v file.

(** The directories that the scan needs: the root and every subdirectory
    of the catalog. *)
Definition all_listed (fs : gmap string listing) (drivers_dir : string)
    (entries : list (string * string * string)) : Prop :=
  Forall (λ entry, is_Some (fs !! listed_dir drivers_dir entry.1.1)) entries.

(** Python's strict order on tuples of two integers. *)
Definition version_lt (a b : KernelVersion) : Prop :=
  a.1 < b.1 ∨ (a.1 = b.1 ∧ a.2 < b.2).

(** *** Reading a table

    The cell of [table] in the row labelled with version [v] and the column
    headed by driver [d]; the caption column is not a driver column. *)

Fixpoint index_of (d : string) (l : list string) : option nat :=
  match l with
  | [] => None
  | x :: r => if decide (x = d) then Some O else S <$> index_of d r
  end.

Fixpoint find_row (label : string) (rows : list (list string))
    : option (list string) :=
  match rows with
  | [] => None
  | row :: rest =>
    if decide (head row = Some label) then Some row else find_row label rest
  end.

Definition cell (table : list (list string)) (v : KernelVersion) (d : string)
    : option string :=
  match table with
  | [] => None
  | header :: rows =>
    i ← index_of d (tail header);
    row ← find_row (version_label v) rows;
    tail row !! i
  end.

(** The mark that [parse_row] writes for driver [d] in the row of [key]. *)
Definition mark (dict_data : gmap KernelVersion (gset string))
    (key : KernelVersion) (d : string) : string :=
  if decide (d ∈ default ∅ (dict_data !! key)) then "X" else "-".

(** The data row that [compute_table] writes for [key], given the driver
    columns. *)
Definition row_of (cols : list string) (m : gmap KernelVersion (gset string))
    (key : KernelVersion) : list string :=
  version_label key :: (mark m key <$> cols).

(** Where a string stops being a run of digits: empty, or at a character
    that is no digit. *)
Definition no_digit_first (s : string) : Prop :=
  match s with
  | EmptyString => True
  | String c _ => re.is_digit c = false
  end.

(** *** The serialisation in the words of the specification

    For a padding width [W]: the header line (first cell left-aligned, the
    others centred), the separator line, and one line per data row (first
    cell right-aligned, the others centred); every cell is framed by [| ]
    and a space, every line is closed by [|]. *)

Definition join_all (l : list string) : string := foldr String.append "" l.

Definition header_line (W : nat) (header0 : string) (header : list string)
    : string :=
  cell_fmt AlignLeft W header0
  +:+ join_all (cell_fmt AlignCenter W <$> header) +:+ "|".

Definition separator_line (W : nat) (columns : nat) : string :=
  "|-" +:+ repeat_char "-" W +:+ ":|"
  +:+ join_all (replicate columns (":" +:+ repeat_char "-" W +:+ ":|")).

Definition data_line (W : nat) (row : string * list string) : string :=
  cell_fmt AlignRight W row.1
  +:+ join_all (cell_fmt AlignCenter W <$> row.2) +:+ "|".

Definition markdown (W : nat) (header0 : string) (header : list string)
    (rows : list (string * list string)) : string :=
  header_line W header0 header +:+ nl
  +:+ separator_line W (List.length header)
  +:+ join_all ((λ row, nl +:+ data_line W row) <$> rows).

(** The labels of the data rows of a table, top to bottom. *)
Definition labels (table : list (list string)) : list string :=
  omap head (tail table).

(** *** The script's main expression: scan, then compute the table *)

Definition main_table (fs : gmap string listing) (devices_dir : string)
    : result (list (list string)) :=
  dict_data ← get_all_drivers fs devices_dir;
  mret (compute_table dict_data).

(** Two directory trees with the same directories, each holding the same
    file names, in whatever order [os.scandir] reports them. *)
Definition same_files (fs1 fs2 : gmap string listing) : Prop :=
  map_relation (λ _ d1 d2, filenames d1 ≡ₚ filenames d2)
               (λ _ _, False) (λ _ _, False) fs1 fs2.

#[global] Instance same_files_dec : RelDecision same_files.
Proof. intros fs1 fs2. unfold same_files. apply _. Defined.

(** What the scan of [demo_tree] returns. *)
Definition demo_dict : gmap KernelVersion (gset string) :=
  {[ (6, 1) := {[ "8139too"; "dwmac-intel"; "e1000"; "igb"; "igc"; "r8169" ]};
     (6, 0) := {[ "e1000e"; "stmmac-pci" ]};
     (5, 15) := {[ "e100"; "r8169" ]} ]}.

(** ** More directory trees for the examples *)

(** [demo_tree] as a second run of [os.scandir] may report it: the same
    names in another order. *)
Definition demo_tree_shuffled : gmap string listing :=
  (λ d, Listing (reverse (dirnames d)) (reverse (filenames d))) <$> demo_tree.

(** [demo_tree] without the subdirectory of the [igb] driver. *)
Definition demo_tree_no_igb : gmap string listing :=
  delete "devices/igb" demo_tree.

(** A tree whose only driver file has a newline after its extension. *)
Definition newline_tree : gmap string listing :=
  list_to_map
    [ ("devices", Listing ["e1000"; "e1000e"; "genet"; "igb"; "igc"; "r8169"; "stmmac"]
                    ["e100-5.15-ethercat.c" +:+ nl]);
      ("devices/e1000", files_only []);
      ("devices/e1000e", files_only []);
      ("devices/genet", files_only []);
      ("devices/igb", files_only []);
      ("devices/igc", files_only []);
      ("devices/r8169", files_only []);
      ("devices/stmmac", files_only []) ].

(** [fs] with every file removed, the directories kept. *)
Definition without_files (fs : gmap string listing) : gmap string listing :=
  (λ d, Listing (dirnames d) []) <$> fs.

(** One step of reading a decimal number: the digit [c] after the number
    [acc]. *)
Definition int_step (acc : N) (c : ascii) : N := 10 * acc + (re.code c - 48).

(** ** File names of any code points

    The definitions above hold a character in 8 bits.  A name that
    [os.walk] yields may hold any code point, and both the class [\d] of a
    [str] pattern and [int] accept every decimal digit of Unicode, not only
    [0]..[9].  The module below embeds the pattern, the matcher and
    [filter_versions] once more, on strings of code points: a string is a
    list of code points, each an [N]. *)

Module unicode.

(** The code points of a string of the development. *)
Definition codes (s : string) : list N := N_of_ascii <$> list_ascii_of_string s.

Definition cp (c : ascii) : N := N_of_ascii c.

Inductive item :=
  | Lit (c : N)
  | AnyChar
  | Digits
  | Eol.

Definition pattern := list item.

Definition between (lo hi : ascii) (c : N) : bool :=
  (cp lo <=? c) && (c <=? cp hi).

(** ASCII letters and digits: after a backslash they do not stand for
    themselves. *)
Definition is_alnum (c : N) : bool :=
  between "0" "9" c || between "A" "Z" c || between "a" "z" c.

Definition is_special (c : N) : bool :=
  existsb (N.eqb c) (codes ".^$*+?{}[]|()" ++ [cp re.backslash]).

Fixpoint lex (s : list N) : option pattern :=
  match s with
  | [] => Some []
  | c :: r =>
    if c =? cp "$" then
      match r with [] => Some [Eol] | _ => None end
    else if c =? cp "." then cons AnyChar <$> lex r
    else if c =? cp re.backslash then
      match r with
      | e :: r' => if is_alnum e then None else cons (Lit e) <$> lex r'
      | [] => None
      end
    else if c =? cp "(" then
      match r with
      | c1 :: c2 :: c3 :: c4 :: c5 :: c6 :: r' =>
        if (c1 =? cp "[") && (c2 =? cp re.backslash) && (c3 =? cp "d")
           && (c4 =? cp "]") && (c5 =? cp "+") && (c6 =? cp ")")
        then cons Digits <$> lex r' else None
      | _ => None
      end
    else if is_special c then None
    else cons (Lit c) <$> lex r
  end.

Definition compile (s : list N) : option pattern :=
  match s with
  | c :: r => if c =? cp "^" then lex r else None
  | [] => None
  end.

Definition at_end (s : list N) : bool :=
  match s with
  | [] => true
  | [c] => c =? cp re.newline
  | _ => false
  end.

Section decimal_digits.

(** The decimal digits of the interpreter's Unicode database, with their
    values: what [\d] and [int] look a character up in.  The table belongs
    to the interpreter, not to the script, and is taken as a parameter. *)
Variable decimal : N → option N.

Definition is_digit (c : N) : bool := bool_decide (is_Some (decimal c)).

Fixpoint digits_loop (k : list N → list N → option (list (list N)))
    (s got : list N) : option (list (list N)) :=
  match s with
  | a :: s' =>
    if is_digit a then
      let got' := got ++ [a] in
      match digits_loop k s' got' with
      | Some r => Some r
      | None => k s' got'
      end
    else None
  | [] => None
  end.

Fixpoint exec (p : pattern) (s : list N) (groups : list (list N))
    : option (list (list N)) :=
  match p with
  | [] => Some groups
  | Lit c :: p' =>
    match s with
    | a :: s' => if a =? c then exec p' s' groups else None
    | [] => None
    end
  | AnyChar :: p' =>
    match s with
    | a :: s' => if a =? cp re.newline then None else exec p' s' groups
    | [] => None
    end
  | Eol :: p' => if at_end s then exec p' s groups else None
  | Digits :: p' =>
    digits_loop (λ s' got, exec p' s' (groups ++ [got])) s []
  end.

Definition match_ (p : pattern) (s : list N) : option (list (list N)) :=
  exec p s [].

Definition group_1_2 (m : list (list N)) : result (list N * list N) :=
  match m with
  | g1 :: g2 :: _ => Ok (g1, g2)
  | _ => Raise IndexError
  end.

(** [int(s)] for a run of decimal digits [s], of whatever scripts. *)
Definition int (s : list N) : N :=
  foldl (λ acc c, 10 * acc + default 0 (decimal c)) 0 s.

Definition compile_regex (prefix file_extension : list N) : result pattern :=
  match compile (codes "^" ++ prefix ++ codes "-([\d]+)\.([\d]+)-ethercat\."
                 ++ file_extension ++ codes "$") with
  | Some rex => Ok rex
  | None => Raise NotModelled
  end.

Fixpoint filter_loop (rex : pattern) (file_list : list (list N))
    (ans : gset KernelVersion) : result (gset KernelVersion) :=
  match file_list with
  | [] => Ok ans
  | file :: rest =>
    match match_ rex file with
    | None => filter_loop rex rest ans
    | Some m =>
      '(maj, min) ← group_1_2 m;
      filter_loop rex rest ({[ (int maj, int min) ]} ∪ ans)
    end
  end.

Definition filter_versions (file_list : list (list N))
    (prefix file_extension : list N) : result (gset KernelVersion) :=
  rex ← compile_regex prefix file_extension;
  filter_loop rex file_list ∅.

(** *** Vocabulary of the statements *)

(** A non-empty run of decimal digits. *)
Definition digit_run (s : list N) : bool :=
  negb (bool_decide (s = [])) && forallb is_digit s.

(** [file] is [<prefix>-<major>.<minor>-ethercat.<ext>] followed by [rest],
    the two numbers written in decimal digits, zeros in front allowed. *)
Definition version_name (prefix ext : list N) (v : KernelVersion)
    (rest file : list N) : Prop :=
  ∃ maj min : list N,
    digit_run maj ∧ digit_run min ∧ v = (int maj, int min) ∧
    file = prefix ++ codes "-" ++ maj ++ codes "." ++ min
           ++ codes "-ethercat." ++ ext ++ rest.

(** The name matches in full: nothing follows the extension. *)
Definition full_match (prefix ext : list N) (v : KernelVersion)
    (file : list N) : Prop :=
  version_name prefix ext v [] file.

(** What the compiled pattern accepts: the name in full, or the name
    followed by one newline. *)
Definition py_match (prefix ext : list N) (v : KernelVersion)
    (file : list N) : Prop :=
  version_name prefix ext v [] file ∨
  version_name prefix ext v [cp re.newline] file.

End decimal_digits.

(** A string without any character that is special in a pattern. *)
Definition plain (s : list N) : bool := forallb (λ c, negb (is_special c)) s.

Definition lits (s : list N) : pattern := Lit <$> s.

(** The pattern that [compile_regex] builds from a plain prefix and
    extension. *)
Definition version_pattern (prefix ext : list N) : pattern :=
  lits prefix ++ Lit (cp "-") :: Digits :: Lit (cp ".") :: Digits ::
  lits (codes "-ethercat.") ++ lits ext ++ [Eol].

(** A pattern on 8-bit characters as a pattern on code points. *)
Definition of_item (i : re.item) : item :=
  match i with
  | re.Lit c => Lit (cp c)
  | re.AnyChar => AnyChar
  | re.Digits => Digits
  | re.Eol => Eol
  end.

Definition of_pattern (p : re.pattern) : pattern :=
  of_item <$> (p : list re.item).

(** Below 256 the table [decimal] knows the digits [0]..[9] and no other
    character. *)
Definition ascii_digits (decimal : N → option N) : Prop :=
  ∀ c : ascii,
    decimal (cp c) = if re.is_digit c then Some (re.code c - 48) else None.

(** The last code point of the name is a newline. *)
Definition ends_in_newline (s : list N) : bool :=
  bool_decide (last s = Some (cp re.newline)).

(** The decimal digits of Unicode 14.0, the database of CPython 3.11: 66
    runs of ten code points with the values 0 to 9, each run given by the
    code point of its zero. *)
Definition zeros_14 : list N :=
  [ 48; 1632; 1776; 1984; 2406; 2534; 2662; 2790; 2918; 3046; 3174; 3302;
    3430; 3558; 3664; 3792; 3872; 4160; 4240; 6112; 6160; 6470; 6608; 6784;
    6800; 6992; 7088; 7232; 7248; 42528; 43216; 43264; 43472; 43504; 43600;
    44016; 65296; 66720; 68912; 69734; 69872; 69942; 70096; 70384; 70736;
    70864; 71248; 71360; 71472; 71904; 72016; 72784; 73040; 73120; 92768;
    92864; 93008; 120782; 120792; 120802; 120812; 120822; 123200; 123632;
    125264; 130032 ].

Definition decimal_14 (c : N) : option N :=
  (λ zero, c - zero)
  <$> head (filter (λ zero, bool_decide (zero ≤ c < zero + 10)) zeros_14).

(** The name of version 5.15 for prefix [e100], written in Arabic-Indic
    digits (5 is U+0665, 1 is U+0661). *)
Definition arabic_indic_name : list N :=
  codes "e100-" ++ [1637] ++ codes "." ++ [1633; 1637] ++ codes "-ethercat.c".

End unicode.

(** ** Lemmas on strings *)

Lemma sapp_cons c (s t : string) : String c s +:+ t = String c (s +:+ t).
Proof. reflexivity. Qed.

Lemma sapp_nil_l (t : string) : "" +:+ t = t.
Proof. reflexivity. Qed.

Lemma sapp_nil_r (s : string) : s +:+ "" = s.
Proof. induction s as [|c s IH]; [done|]. by rewrite sapp_cons, IH. Qed.

Lemma sapp_assoc (s t u : string) : (s +:+ t) +:+ u = s +:+ (t +:+ u).
Proof. induction s as [|c s IH]; [done|]. by rewrite !sapp_cons, IH. Qed.

Lemma digit_run_cons (s : string) :
  digit_run s ↔ ∃ a r, s = String a r ∧ re.is_digit a ∧ all_chars re.is_digit r.
Proof.
  unfold digit_run. destruct s as [|a r]; simpl.
  - split; [done|]. by intros (?&?&?&_).
  - rewrite andb_True. split; [intros [? ?]; eauto|].
    intros (a' & r' & Heq & ? & ?). by simplify_eq.
Qed.

Lemma digit_run_intro a (ds : string) :
  re.is_digit a → all_chars re.is_digit ds → digit_run (String a ds).
Proof. intros. apply digit_run_cons. eauto. Qed.

Lemma digit_run_all (ds : string) : digit_run ds → all_chars re.is_digit ds.
Proof.
  intros (a & r & -> & Ha & Hr)%digit_run_cons. simpl. by apply andb_True.
Qed.

(** ** The pattern of a plain prefix and extension *)

Lemma not_special c :
  re.is_special c = false →
  Ascii.eqb c "$" = false ∧ Ascii.eqb c "." = false ∧
  Ascii.eqb c re.backslash = false ∧ Ascii.eqb c "(" = false.
Proof.
  intros H. repeat split; apply Ascii.eqb_neq; intros ->; done.
Qed.


Lemma lex_plain (p r : string) :
  plain p → re.lex (p +:+ r) = (lits p ++.) <$> re.lex r.
Proof.
  induction p as [|c p IH]; intros Hp.
  - rewrite sapp_nil_l. by destruct (re.lex r).
  - simpl in Hp. apply andb_True in Hp as [Hc Hp].
    apply negb_True, Is_true_false in Hc.
    destruct (not_special c Hc) as (H1 & H2 & H3 & H4).
    rewrite sapp_cons. cbn [re.lex]. rewrite H1, H2, H3, H4, Hc, (IH Hp).
    by destruct (re.lex r).
Qed.

Lemma lex_version_part (x : string) :
  re.lex ("-([\d]+)\.([\d]+)-ethercat\." +:+ x)
  = (λ l, re.Lit "-" :: re.Digits :: re.Lit "." :: re.Digits ::
          lits "-ethercat." ++ l) <$> re.lex x.
Proof.
  rewrite !sapp_cons, sapp_nil_l. cbn. by destruct (re.lex x).
Qed.

Lemma compile_regex_plain (prefix ext : string) :
  plain prefix → plain ext →
  compile_regex prefix ext = Ok (version_pattern prefix ext).
Proof.
  intros Hp He. unfold compile_regex.
  rewrite sapp_cons, sapp_nil_l. cbn [re.compile].
  change (Ascii.eqb "^" "^") with true. cbn iota.
  rewrite (lex_plain prefix _ Hp), lex_version_part, (lex_plain ext _ He).
  done.
Qed.

(** ** What the pattern matches *)

Lemma exec_lits (p : string) rest s g r :
  re.exec (lits p ++ rest) s g = Some r ↔
  ∃ s', s = p +:+ s' ∧ re.exec rest s' g = Some r.
Proof.
  revert s. induction p as [|c p IH]; intros s.
  - split; [by exists s|]. by intros (s' & -> & H).
  - change (lits (String c p) ++ rest) with (re.Lit c :: (lits p ++ rest)).
    cbn [re.exec]. destruct s as [|a s].
    { split; [done|]. by intros (s' & ? & _). }
    destruct (Ascii.eqb_spec a c) as [->|Hne].
    + rewrite IH. split; intros (s' & Hs & H); exists s'; split; try done.
      * by rewrite sapp_cons, Hs.
      * rewrite sapp_cons in Hs. by simplify_eq.
    + split; [done|]. intros (s' & Hs & _). rewrite sapp_cons in Hs.
      by simplify_eq.
Qed.

Lemma digits_loop_digit k s got r :
  re.digits_loop k s got = Some r → ∃ a s', s = String a s' ∧ re.is_digit a.
Proof.
  destruct s as [|a s']; [done|]. cbn [re.digits_loop].
  destruct (re.is_digit a) eqn:Ha; [|done]. intros _. exists a, s'.
  by rewrite Ha.
Qed.

Lemma digits_loop_spec k s got r :
  (∀ a s' got', re.is_digit a → k (String a s') got' = None) →
  re.digits_loop k s got = Some r ↔
  ∃ ds s', digit_run ds ∧ s = ds +:+ s' ∧ k s' (got +:+ ds) = Some r.
Proof.
  intros Hk. revert got. induction s as [|a s IH]; intros got.
  { split; [done|]. intros (ds & s' & Hds & Hs & _).
    apply digit_run_cons in Hds as (a & ds0 & -> & _). by rewrite sapp_cons in Hs. }
  cbn [re.digits_loop]. destruct (re.is_digit a) eqn:Ha.
  2:{ split; [done|]. intros (ds & s' & Hds & Hs & _).
      apply digit_run_cons in Hds as (a' & ds0 & -> & Ha' & _).
      rewrite sapp_cons in Hs. simplify_eq. by rewrite Ha in Ha'. }
  cbn zeta. destruct (re.digits_loop k s (got +:+ String a "")) as [r0|] eqn:E.
  - split.
    + intros [= ->]. apply IH in E as (ds & s' & Hds & -> & Hr).
      exists (String a ds), s'. split_and!; [|done|].
      * apply digit_run_intro; [by rewrite Ha|by apply digit_run_all].
      * by rewrite sapp_assoc in Hr.
    + intros (ds & s' & Hds & Hs & Hr).
      apply digit_run_cons in Hds as (a' & ds0 & -> & _ & Hds0).
      rewrite sapp_cons in Hs. simplify_eq. destruct ds0 as [|b ds0].
      * rewrite sapp_nil_l in E.
        apply digits_loop_digit in E as (b & s0 & -> & Hb).
        by rewrite (Hk b s0 _ Hb) in Hr.
      * f_equal. enough (Some r0 = Some r) by congruence.
        rewrite <- E. apply IH. exists (String b ds0), s'.
        split_and!; [|done|by rewrite sapp_assoc].
        simpl in Hds0. apply andb_True in Hds0 as [? ?].
        by apply digit_run_intro.
  - split.
    + intros Hr. exists (String a ""), s. split_and!; [|done..].
      apply digit_run_intro; [by rewrite Ha|done].
    + intros (ds & s' & Hds & Hs & Hr).
      apply digit_run_cons in Hds as (a' & ds0 & -> & _ & Hds0).
      rewrite sapp_cons in Hs. simplify_eq. destruct ds0 as [|b ds0].
      * by rewrite sapp_nil_l.
      * exfalso. enough (re.digits_loop k (String b ds0 +:+ s') (got +:+ String a' "") = Some r)
          by congruence.
        apply IH. exists (String b ds0), s'.
        split_and!; [|done|by rewrite sapp_assoc].
        simpl in Hds0. apply andb_True in Hds0 as [? ?].
        by apply digit_run_intro.
Qed.

Lemma exec_digits (c : ascii) (q : string) rest s g r :
  re.is_digit c = false →
  re.exec (re.Digits :: lits (String c q) ++ rest) s g = Some r ↔
  ∃ ds s', digit_run ds ∧ s = ds +:+ s' ∧
           re.exec (lits (String c q) ++ rest) s' (g ++ [ds]) = Some r.
Proof.
  intros Hc. cbn [re.exec]. rewrite digits_loop_spec.
  - by setoid_rewrite sapp_nil_l.
  - intros a s' got' Ha.
    change (lits (String c q) ++ rest) with (re.Lit c :: (lits q ++ rest)).
    cbn [re.exec]. destruct (Ascii.eqb_spec a c) as [->|]; [|done].
    by rewrite Hc in Ha.
Qed.

Lemma exec_eol s g r :
  re.exec [re.Eol] s g = Some r ↔ (s = "" ∨ s = nl) ∧ r = g.
Proof.
  cbn [re.exec]. destruct s as [|a [|b s]]; cbn [re.at_end].
  - split; [intros [= ->]; auto | intros [_ ->]; done].
  - destruct (Ascii.eqb_spec a re.newline) as [->|Hne].
    + split; [intros [= ->]; auto | intros [_ ->]; done].
    + split; [done|]. intros [[?|?] _]; [done|]. unfold nl in *. by simplify_eq.
  - split; [done|]. by intros [[?|?] _].
Qed.

Lemma match_version_pattern (prefix ext file : string) r :
  re.match_ (version_pattern prefix ext) file = Some r ↔
  ∃ maj min rest,
    digit_run maj ∧ digit_run min ∧ (rest = "" ∨ rest = nl) ∧
    file = prefix +:+ "-" +:+ maj +:+ "." +:+ min +:+ "-ethercat." +:+ ext +:+ rest ∧
    r = [maj; min].
Proof.
  unfold re.match_, version_pattern.
  change (lits prefix ++ re.Lit "-" :: re.Digits :: re.Lit "." :: re.Digits ::
          lits "-ethercat." ++ lits ext ++ [re.Eol])
    with (lits prefix ++ lits "-" ++ re.Digits :: lits "." ++ re.Digits ::
          lits "-ethercat." ++ lits ext ++ [re.Eol]).
  rewrite exec_lits. setoid_rewrite exec_lits.
  setoid_rewrite exec_digits; [|done].
  setoid_rewrite exec_lits. setoid_rewrite exec_digits; [|done].
  setoid_rewrite exec_lits. setoid_rewrite exec_lits.
  setoid_rewrite exec_eol. split.
  - intros (s1 & -> & s2 & -> & maj & s3 & Hmaj & -> & s4 & -> & min & s5 &
            Hmin & -> & s6 & -> & s7 & -> & Hend & ->).
    by exists maj, min, s7.
  - intros (maj & min & rest & Hmaj & Hmin & Hend & -> & ->).
    exists ("-" +:+ maj +:+ "." +:+ min +:+ "-ethercat." +:+ ext +:+ rest).
    split; [done|]. eexists. split; [done|]. exists maj. eexists.
    split; [done|]. split; [done|]. eexists. split; [done|].
    exists min. eexists. split; [done|]. split; [done|].
    eexists. split; [done|]. exists rest. done.
Qed.

Lemma match_py_match (prefix ext file : string) (v : KernelVersion) :
  py_match prefix ext v file ↔
  ∃ maj min, re.match_ (version_pattern prefix ext) file = Some [maj; min] ∧
             v = (int maj, int min).
Proof.
  unfold py_match, version_name. split.
  - intros [(maj & min & ? & ? & -> & ->)|(maj & min & ? & ? & -> & ->)];
      exists maj, min; (split; [|done]); apply match_version_pattern.
    + exists maj, min, "". auto.
    + exists maj, min, nl. auto.
  - intros (maj & min & Hm & ->).
    apply match_version_pattern in Hm
      as (maj' & min' & rest & ? & ? & [->| ->] & -> & Hr); simplify_eq;
      [left|right]; by exists maj', min'.
Qed.

Lemma filter_loop_spec (prefix ext : string) (file_list : list string) ans :
  ∃ vs, filter_loop (version_pattern prefix ext) file_list ans = Ok vs ∧
    ∀ v, v ∈ vs ↔ v ∈ ans ∨ ∃ file, file ∈ file_list ∧ py_match prefix ext v file.
Proof.
  revert ans. induction file_list as [|file rest IH]; intros ans.
  { exists ans. split; [done|]. intros v. split; [auto|].
    intros [?|(? & []%elem_of_nil & _)]. done. }
  cbn [filter_loop].
  destruct (re.match_ (version_pattern prefix ext) file) as [m|] eqn:Hm.
  - pose proof Hm as Hm'.
    apply match_version_pattern in Hm' as (maj & min & tl & _ & _ & _ & _ & ->).
    cbn. destruct (IH ({[(int maj, int min)]} ∪ ans)) as (vs & -> & Hvs).
    exists vs. split; [done|]. intros v. rewrite Hvs, elem_of_union, elem_of_singleton.
    split.
    + intros [[->|?]|(f & ? & ?)]; [right|by left|right].
      * exists file. split; [by left|]. apply match_py_match. eauto.
      * exists f. split; [by right|done].
    + intros [?|(f & [->|?]%elem_of_cons & Hf)]; [by left;right| |right; eauto].
      apply match_py_match in Hf as (maj' & min' & Hf & ->).
      rewrite Hm in Hf. simplify_eq. by left; left.
  - destruct (IH ans) as (vs & -> & Hvs). exists vs. split; [done|].
    intros v. rewrite Hvs. split.
    + intros [?|(f & ? & ?)]; [by left|right]. exists f. split; [by right|done].
    + intros [?|(f & [->|?]%elem_of_cons & Hf)]; [by left| |right; eauto].
      apply match_py_match in Hf as (maj' & min' & Hf & ->). congruence.
Qed.

(** [filter_versions] for a prefix and an extension without special
    characters: the versions of the names that the pattern accepts. *)
Lemma filter_versions_spec (file_list : list string) (prefix ext : string) :
  plain prefix → plain ext →
  ∃ vs, filter_versions file_list prefix ext = Ok vs ∧
    ∀ v, v ∈ vs ↔ ∃ file, file ∈ file_list ∧ py_match prefix ext v file.
Proof.
  intros Hp He. unfold filter_versions. rewrite (compile_regex_plain _ _ Hp He).
  cbn. destruct (filter_loop_spec prefix ext file_list ∅) as (vs & -> & Hvs).
  exists vs. split; [done|]. intros v. rewrite Hvs.
  split; [intros [[]%not_elem_of_empty|?]; done|auto].
Qed.

Lemma endswith_app_nl (x : string) : endswith re.newline (x +:+ nl) = true.
Proof.
  induction x as [|a x IH]; [done|]. rewrite sapp_cons.
  destruct (x +:+ nl) as [|b r] eqn:E; [done|]. done.
Qed.

Lemma version_name_nl prefix ext v file :
  version_name prefix ext v nl file → endswith re.newline file = true.
Proof.
  intros (maj & min & _ & _ & _ & ->).
  rewrite <- !sapp_assoc. apply endswith_app_nl.
Qed.

Lemma py_match_full prefix ext v file :
  endswith re.newline file = false →
  py_match prefix ext v file ↔ full_match prefix ext v file.
Proof.
  intros Hf. unfold py_match, full_match. split; [|auto].
  intros [?|H%version_name_nl]; [done|congruence].
Qed.

(** ** [add_driver] and the scan *)

Lemma add_driver_step_lookup (driver : string) (version v : KernelVersion)
    (t : gmap KernelVersion (gset string)) :
  add_driver_step driver version t !! v
  = if decide (version = v) then Some ({[driver]} ∪ default ∅ (t !! version))
    else t !! v.
Proof.
  unfold add_driver_step. rewrite lookup_alter.
  destruct (decide (version = v)) as [<-|Hne]; case_decide as Hd; try done.
  - apply elem_of_dom in Hd as [s Hs]. by rewrite Hs.
  - apply not_elem_of_dom in Hd. rewrite lookup_insert_eq, Hd. done.
  - by rewrite lookup_insert_ne.
Qed.

Lemma add_driver_lookup (versions : gset KernelVersion) (driver : string)
    (t : gmap KernelVersion (gset string)) (v : KernelVersion) :
  add_driver versions driver t !! v
  = if decide (v ∈ versions) then Some ({[driver]} ∪ default ∅ (t !! v))
    else t !! v.
Proof.
  unfold add_driver. revert v.
  refine (set_fold_ind_L
    (λ r (X : gset KernelVersion), ∀ v, r !! v
       = if decide (v ∈ X) then Some ({[driver]} ∪ default ∅ (t !! v))
         else t !! v) (add_driver_step driver) t _ _ versions).
  - intros v. by rewrite decide_False by apply not_elem_of_empty.
  - intros x X r Hx IH v. rewrite add_driver_step_lookup.
    destruct (decide (x = v)) as [<-|Hne].
    + rewrite decide_True by (apply elem_of_union_l; by apply elem_of_singleton).
      by rewrite IH, decide_False.
    + rewrite IH. destruct (decide (v ∈ X)) as [Hv|Hv].
      * by rewrite decide_True by (by apply elem_of_union_r).
      * rewrite decide_False; [done|].
        intros [Hx'%elem_of_singleton|?]%elem_of_union; congruence.
Qed.

Lemma add_driver_dom versions driver t v :
  v ∈ dom (add_driver versions driver t) ↔ v ∈ dom t ∨ v ∈ versions.
Proof.
  rewrite !elem_of_dom, add_driver_lookup. case_decide as Hv.
  - split; [auto|]. by intros _.
  - split; [auto|]. by intros [?|?].
Qed.

Lemma add_driver_mem versions driver t v d :
  d ∈ default ∅ (add_driver versions driver t !! v) ↔
  d ∈ default ∅ (t !! v) ∨ (d = driver ∧ v ∈ versions).
Proof.
  rewrite add_driver_lookup. case_decide as Hv; simpl.
  - rewrite elem_of_union, elem_of_singleton. split.
    + intros [->|?]; auto.
    + intros [?|[-> _]]; auto.
  - split; [auto|]. by intros [?|[_ ?]].
Qed.

(** One step of the loop over the catalog, for an entry with a plain prefix:
    the versions found in the directory that the entry lists. *)
Lemma scan_entries_cons fs drivers_dir d0 subdir driver_name file_prefix rest t :
  plain file_prefix →
  fs !! drivers_dir = Some d0 →
  scan_entries fs drivers_dir (filenames d0)
    ((subdir, driver_name, file_prefix) :: rest) t
  = match fs !! listed_dir drivers_dir subdir with
    | None => Raise StopIteration
    | Some d =>
      match filter_versions (filenames d) file_prefix "c" with
      | Ok versions =>
        scan_entries fs drivers_dir (filenames d0) rest
          (add_driver versions driver_name t)
      | Raise e => Raise e
      end
    end.
Proof.
  intros Hp H0. cbn [scan_entries]. unfold listed_dir.
  destruct (String.eqb subdir ".").
  - rewrite H0. done.
  - unfold next_walk. destruct (fs !! join drivers_dir subdir); done.
Qed.

Lemma scan_entries_spec fs drivers_dir d0 entries t m :
  Forall (λ entry, plain entry.2) entries →
  fs !! drivers_dir = Some d0 →
  scan_entries fs drivers_dir (filenames d0) entries t = Ok m →
  ∀ v,
    (v ∈ dom m ↔
       v ∈ dom t ∨ ∃ entry, entry ∈ entries ∧ finds fs drivers_dir entry v) ∧
    (∀ d, d ∈ default ∅ (m !! v) ↔
       d ∈ default ∅ (t !! v) ∨
       ∃ entry, entry ∈ entries ∧ entry.1.2 = d ∧ finds fs drivers_dir entry v).
Proof.
  intros Hplain H0. revert t.
  induction Hplain as [|[[subdir name] prefix] rest Hp Hrest IH]; intros t Hm v.
  { cbn in Hm. simplify_eq. split; [|intros d]; (split; [auto|]);
      by intros [?|(? & []%elem_of_nil & _)]. }
  simpl in Hp. rewrite (scan_entries_cons _ _ _ _ _ _ _ _ Hp H0) in Hm.
  destruct (fs !! listed_dir drivers_dir subdir) as [l|] eqn:Hl; [|done].
  destruct (filter_versions_spec (filenames l) prefix "c" Hp I)
    as (vs & Hvs & Hin).
  rewrite Hvs in Hm. destruct (IH _ Hm v) as [IHdom IHmem].
  assert (Hfinds : ∀ v, v ∈ vs ↔ finds fs drivers_dir (subdir, name, prefix) v).
  { intros v'. rewrite Hin. unfold finds. simpl. rewrite Hl. split.
    - intros (file & ? & ?). by exists l, file.
    - intros (l' & file & ? & ? & ?). simplify_eq. by exists file. }
  split; [|intros d].
  - rewrite IHdom, add_driver_dom, Hfinds. split.
    + intros [[?|?]|(e & ? & ?)]; [by left|right..].
      * eexists. split; [by left|done].
      * exists e. split; [by right|done].
    + intros [?|(e & [->|?]%elem_of_cons & ?)]; [by left; left|by left; right|].
      right. by exists e.
  - rewrite IHmem, add_driver_mem, Hfinds. split.
    + intros [[?|[-> ?]]|(e & ? & ? & ?)]; [by left|right..].
      * eexists. split; [by left|done].
      * exists e. split; [by right|done].
    + intros [?|(e & [->|?]%elem_of_cons & Hd & ?)];
        [by left; left|left; right; by simpl in Hd|].
      right. by exists e.
Qed.

(** The scan succeeds exactly when every directory it lists exists, and
    otherwise stops with [StopIteration]. *)
Lemma scan_entries_result fs drivers_dir d0 entries t :
  Forall (λ entry, plain entry.2) entries →
  fs !! drivers_dir = Some d0 →
  match scan_entries fs drivers_dir (filenames d0) entries t with
  | Ok _ => all_listed fs drivers_dir entries
  | Raise e => e = StopIteration ∧ ¬ all_listed fs drivers_dir entries
  end.
Proof.
  intros Hplain H0. revert t. unfold all_listed.
  induction Hplain as [|[[subdir name] prefix] rest Hp Hrest IH]; intros t.
  { cbn. constructor. }
  simpl in Hp. rewrite (scan_entries_cons _ _ _ _ _ _ _ _ Hp H0).
  destruct (fs !! listed_dir drivers_dir subdir) as [l|] eqn:Hl.
  - destruct (filter_versions_spec (filenames l) prefix "c" Hp I)
      as (vs & -> & _).
    specialize (IH (add_driver vs name t)).
    destruct (scan_entries fs drivers_dir (filenames d0) rest _).
    + constructor; [simpl; by rewrite Hl|done].
    + destruct IH as [-> Hno]. split; [done|].
      intros Hall. apply Hno. by inversion Hall.
  - split; [done|]. intros Hall. inversion Hall as [|? ? [? Hsome] ?]; subst.
    simpl in Hsome. congruence.
Qed.

Lemma catalog_plain : Forall (λ entry, plain entry.2) DRIVER_MAP.
Proof. repeat constructor. Qed.

Lemma get_all_drivers_unfold fs drivers_dir :
  get_all_drivers fs drivers_dir
  = match fs !! drivers_dir with
    | Some d0 => scan_entries fs drivers_dir (filenames d0) DRIVER_MAP ∅
    | None => Raise StopIteration
    end.
Proof.
  unfold get_all_drivers, next_walk. by destruct (fs !! drivers_dir).
Qed.

Lemma get_all_drivers_result fs drivers_dir :
  match get_all_drivers fs drivers_dir with
  | Ok _ => is_Some (fs !! drivers_dir) ∧ all_listed fs drivers_dir DRIVER_MAP
  | Raise e =>
    e = StopIteration ∧
    ¬ (is_Some (fs !! drivers_dir) ∧ all_listed fs drivers_dir DRIVER_MAP)
  end.
Proof.
  rewrite get_all_drivers_unfold.
  destruct (fs !! drivers_dir) as [d0|] eqn:H0.
  - pose proof (scan_entries_result fs drivers_dir d0 DRIVER_MAP ∅
                  catalog_plain H0) as H.
    destruct (scan_entries fs drivers_dir (filenames d0) DRIVER_MAP ∅).
    + split; [by eexists|done].
    + destruct H as [-> H]. split; [done|]. by intros [_ ?].
  - split; [done|]. by intros [[? ?] _].
Qed.

Lemma get_all_drivers_spec fs drivers_dir m :
  get_all_drivers fs drivers_dir = Ok m →
  ∀ v,
    (v ∈ dom m ↔ ∃ entry, entry ∈ DRIVER_MAP ∧ finds fs drivers_dir entry v) ∧
    (∀ d, d ∈ default ∅ (m !! v) ↔
       ∃ entry, entry ∈ DRIVER_MAP ∧ entry.1.2 = d ∧
                finds fs drivers_dir entry v).
Proof.
  rewrite get_all_drivers_unfold.
  destruct (fs !! drivers_dir) as [d0|] eqn:H0; [|done].
  intros Hm v.
  destruct (scan_entries_spec fs drivers_dir d0 DRIVER_MAP ∅ m
              catalog_plain H0 Hm v) as [Hdom Hmem].
  split; [|intros d].
  - rewrite Hdom, dom_empty_L. split; [|auto].
    by intros [[]%not_elem_of_empty|?].
  - rewrite Hmem, lookup_empty. simpl. split; [|auto].
    by intros [[]%not_elem_of_empty|?].
Qed.

(** ** The order of the rows *)

#[local] Instance version_le_total : Total version_le.
Proof. intros [a1 a2] [b1 b2]. unfold version_le. simpl. lia. Qed.

#[local] Instance version_le_trans : Transitive version_le.
Proof. intros [a1 a2] [b1 b2] [c1 c2]. unfold version_le. simpl. lia. Qed.

#[local] Instance version_le_antisymm : AntiSymm (=) version_le.
Proof.
  intros [a1 a2] [b1 b2]. unfold version_le. simpl. intros ? ?.
  f_equal; lia.
Qed.

#[local] Instance version_ge_total : Total (flip version_le).
Proof. intros a b. destruct (total version_le a b); auto. Qed.

#[local] Instance version_ge_antisymm : AntiSymm (=) (flip version_le).
Proof. intros a b ? ?. by apply (anti_symm version_le). Qed.

Lemma version_lt_le (a b : KernelVersion) :
  version_lt a b ↔ version_le a b ∧ a ≠ b.
Proof.
  destruct a as [a1 a2], b as [b1 b2]. unfold version_lt, version_le. simpl.
  split.
  - intros H. split; [lia|]. intros [= -> ->]. lia.
  - intros [H Hne]. destruct H as [?|[-> ?]]; [by left|right].
    split; [done|]. assert (a2 ≠ b2) by congruence. lia.
Qed.

Lemma sorted_reverse_perm (keys : list KernelVersion) :
  sorted_reverse keys ≡ₚ keys.
Proof. apply merge_sort_Permutation. Qed.

Lemma sorted_reverse_sorted (keys : list KernelVersion) :
  StronglySorted (flip version_le) (sorted_reverse keys).
Proof. apply (StronglySorted_merge_sort (flip version_le)). Qed.

Lemma StronglySorted_strict (l : list KernelVersion) :
  NoDup l → StronglySorted (flip version_le) l →
  StronglySorted (flip version_lt) l.
Proof.
  intros Hnd Hs. induction Hs as [|x l Hs IH Hx]; [constructor|].
  apply NoDup_cons in Hnd as [Hxl Hnd]. constructor; [by apply IH|].
  apply Forall_forall. intros y Hy. apply version_lt_le. split.
  - by apply (proj1 (Forall_forall _ _) Hx).
  - intros ->. done.
Qed.

Lemma sorted_reverse_strict (keys : list KernelVersion) :
  NoDup keys → StronglySorted (flip version_lt) (sorted_reverse keys).
Proof.
  intros Hnd. apply StronglySorted_strict; [|apply sorted_reverse_sorted].
  by rewrite sorted_reverse_perm.
Qed.

(** A list in strictly descending order is the only such arrangement of
    its elements. *)
Lemma sorted_reverse_unique (keys ks : list KernelVersion) :
  keys ≡ₚ ks → StronglySorted (flip version_le) ks → sorted_reverse keys = ks.
Proof.
  intros Hp Hs. apply (StronglySorted_unique (flip version_le)).
  - apply sorted_reverse_sorted.
  - done.
  - by rewrite sorted_reverse_perm.
Qed.

Lemma keys_dom (m : gmap KernelVersion (gset string)) (v : KernelVersion) :
  v ∈ (map_to_list m).*1 ↔ v ∈ dom m.
Proof.
  rewrite elem_of_dom, list_elem_of_fmap. split.
  - intros ([k s] & -> & H%elem_of_map_to_list). by exists s.
  - intros [s Hs]. exists (v, s). split; [done|]. by apply elem_of_map_to_list.
Qed.

Lemma sorted_keys_dom (m : gmap KernelVersion (gset string)) v :
  v ∈ sorted_reverse (map_to_list m).*1 ↔ v ∈ dom m.
Proof. by rewrite sorted_reverse_perm, keys_dom. Qed.

(** ** The rows as a map over the sorted keys *)

Lemma foldl_snoc {A B} (f : B → A) (l : list B) (acc : list A) :
  foldl (λ acc x, acc ++ [f x]) acc l = acc ++ (f <$> l).
Proof.
  revert acc. induction l as [|x l IH]; intros acc; simpl.
  - by rewrite app_nil_r.
  - by rewrite IH, <- app_assoc.
Qed.

Lemma foldl_pointwise {A B} (f g : A → B → A) (l : list B) (acc : A) :
  (∀ a x, f a x = g a x) → foldl f acc l = foldl g acc l.
Proof.
  intros Hfg. revert acc. induction l as [|x l IH]; intros acc; simpl; [done|].
  by rewrite Hfg, IH.
Qed.

Lemma parse_row_marks (m : gmap KernelVersion (gset string)) key :
  parse_row m key = mark m key <$> DRIVERS.
Proof.
  unfold parse_row.
  etrans; [|apply (foldl_snoc (mark m key) DRIVERS [])].
  apply foldl_pointwise. intros row d. unfold mark. by case_decide.
Qed.

Lemma compute_table_rows (m : gmap KernelVersion (gset string)) :
  compute_table m
  = ("Kernel" :: DRIVERS)
    :: (row_of DRIVERS m <$> sorted_reverse (map_to_list m).*1).
Proof.
  unfold compute_table. cbn zeta.
  etrans; [|apply (foldl_snoc (row_of DRIVERS m) _ ["Kernel" :: DRIVERS])].
  apply foldl_pointwise. intros ans key. unfold row_of.
  by rewrite parse_row_marks.
Qed.

(** ** Iteration order

    A Python [set] is iterated in an order of its own, which for strings
    changes from one run to the next, and a [dict] in the order of
    insertion.  The script sorts what it iterates over, or only adds the
    elements to another set or dict: in each place the result is the same
    for every order, which is why sets and dicts are embedded as [gset]
    and [gmap]. *)

Lemma sorted_any_order (l1 l2 : list string) :
  l1 ≡ₚ l2 → sorted l1 = sorted l2.
Proof.
  intros Hp. unfold sorted. apply (Sorted_unique String.le).
  - apply (Sorted_merge_sort String.le).
  - apply (Sorted_merge_sort String.le).
  - by rewrite !merge_sort_Permutation.
Qed.

Lemma sorted_reverse_any_order (l1 l2 : list KernelVersion) :
  l1 ≡ₚ l2 → sorted_reverse l1 = sorted_reverse l2.
Proof.
  intros Hp. apply sorted_reverse_unique; [|apply sorted_reverse_sorted].
  by rewrite sorted_reverse_perm.
Qed.

Lemma add_driver_step_comm (driver : string) (v1 v2 : KernelVersion)
    (t : gmap KernelVersion (gset string)) :
  add_driver_step driver v1 (add_driver_step driver v2 t)
  = add_driver_step driver v2 (add_driver_step driver v1 t).
Proof.
  apply map_eq. intros v. rewrite !add_driver_step_lookup.
  repeat case_decide; simplify_eq; done.
Qed.

Lemma foldl_flip_foldr {A B} (f : A → B → B) (b : B) (l : list A) :
  foldl (flip f) b l = foldr f b (reverse l).
Proof.
  revert b. induction l as [|x l IH]; intros b; [done|].
  rewrite reverse_cons, foldr_app. apply IH.
Qed.

(** The loop of [add_driver], run over the versions in any order. *)
Lemma add_driver_any_order (versions : gset KernelVersion) (driver : string)
    (t : gmap KernelVersion (gset string)) (l : list KernelVersion) :
  l ≡ₚ elements versions →
  foldl (flip (add_driver_step driver)) t l = add_driver versions driver t.
Proof.
  intros Hp. rewrite foldl_flip_foldr. unfold add_driver, set_fold. cbn.
  apply (foldr_permutation (=) (add_driver_step driver) t).
  - intros j1 a1 j2 a2 b _ _ _. apply add_driver_step_comm.
  - by rewrite reverse_Permutation.
Qed.

(** ** Row labels *)

Lemma pretty_N_char_digit (x : N) : re.is_digit (pretty_N_char x).
Proof. unfold pretty_N_char. by repeat case_match. Qed.

Lemma pretty_N_go_digits (x : N) (s : string) :
  all_chars re.is_digit s → all_chars re.is_digit (pretty_N_go x s).
Proof.
  revert s. induction (N.lt_wf_0 x) as [x _ IH]; intros s Hs.
  assert (x = 0 ∨ 0 < x) as [->|?] by lia; [done|].
  rewrite pretty_N_go_step by done. apply IH; [by apply N.div_lt|].
  simpl. apply andb_True. split; [apply pretty_N_char_digit|done].
Qed.

Lemma pretty_N_go_length (x : N) (s : string) :
  (String.length s ≤ String.length (pretty_N_go x s))%nat.
Proof.
  revert s. induction (N.lt_wf_0 x) as [x _ IH]; intros s.
  assert (x = 0 ∨ 0 < x) as [->|?] by lia; [done|].
  rewrite pretty_N_go_step by done.
  etrans; [|apply IH; by apply N.div_lt]. simpl. lia.
Qed.

(** [str(n)] is a non-empty run of digits. *)
Lemma pretty_N_digit_run (n : N) : digit_run (pretty n).
Proof.
  unfold pretty, pretty_N. case_decide as Hn; [done|].
  unfold digit_run. apply andb_True. split; [|by apply pretty_N_go_digits].
  rewrite pretty_N_go_step by lia.
  pose proof (pretty_N_go_length (n `div` 10)
                (String (pretty_N_char (n `mod` 10)) "")) as Hlen.
  destruct (pretty_N_go _ _); [simpl in Hlen; lia|done].
Qed.

Lemma digits_split (d1 d2 x1 x2 : string) :
  all_chars re.is_digit d1 → all_chars re.is_digit d2 →
  no_digit_first x1 → no_digit_first x2 →
  d1 +:+ x1 = d2 +:+ x2 → d1 = d2 ∧ x1 = x2.
Proof.
  revert d2. induction d1 as [|c d1 IH]; intros [|c' d2] H1 H2 Hx1 Hx2 Heq.
  - done.
  - rewrite sapp_nil_l, sapp_cons in Heq. subst x1. simpl in *.
    apply andb_True in H2 as [Hc _]. by rewrite Hx1 in Hc.
  - rewrite sapp_nil_l, sapp_cons in Heq. subst x2. simpl in *.
    apply andb_True in H1 as [Hc _]. by rewrite Hx2 in Hc.
  - rewrite !sapp_cons in Heq. simplify_eq. simpl in *.
    apply andb_True in H1 as [_ H1]. apply andb_True in H2 as [_ H2].
    destruct (IH d2 H1 H2 Hx1 Hx2) as [-> ->]; done.
Qed.

Lemma no_digit_first_spaces (n : nat) : no_digit_first (repeat_char " " n).
Proof. by destruct n. Qed.

Lemma pad_left (width : nat) (s : string) :
  pad AlignLeft width s = s +:+ repeat_char " " (width - String.length s).
Proof. unfold pad. by rewrite sapp_nil_l, Nat.sub_0_r. Qed.

Lemma version_label_inj (a b : KernelVersion) :
  version_label a = version_label b → a = b.
Proof.
  destruct a as [a1 a2], b as [b1 b2]. unfold version_label. simpl.
  rewrite !pad_left. intros Heq.
  apply digits_split in Heq as [H1 Heq];
    [|by apply digit_run_all, pretty_N_digit_run..|done|done].
  rewrite !sapp_cons, !sapp_nil_l in Heq. simplify_eq.
  apply digits_split in Heq as [H2 _];
    [|by apply digit_run_all, pretty_N_digit_run..
     |apply no_digit_first_spaces|apply no_digit_first_spaces].
  f_equal; by apply (inj pretty).
Qed.

(** ** Reading the computed table *)

Lemma DRIVERS_eq :
  DRIVERS = ["8139too"; "bcmgenet"; "dwmac-intel"; "e100"; "e1000"; "e1000e";
             "igb"; "igc"; "r8169"; "stmmac-pci"].
Proof. by vm_compute. Qed.

Lemma DRIVERS_NoDup : NoDup DRIVERS.
Proof. rewrite DRIVERS_eq. apply (bool_decide_unpack _). by vm_compute. Qed.

Lemma index_of_None (d : string) (l : list string) :
  d ∉ l → index_of d l = None.
Proof.
  induction l as [|x l IH]; [done|]. intros Hd. simpl.
  rewrite decide_False by (intros ->; apply Hd; by left).
  rewrite IH; [done|]. intros ?. apply Hd. by right.
Qed.

Lemma index_of_lookup (d : string) (l : list string) (i : nat) :
  NoDup l → l !! i = Some d → index_of d l = Some i.
Proof.
  intros Hnd. revert i. induction Hnd as [|x l Hx Hnd IH]; intros i Hi; [done|].
  simpl. destruct i as [|i]; simpl in Hi.
  - simplify_eq. by rewrite decide_True.
  - rewrite decide_False.
    + by rewrite (IH i Hi).
    + intros ->. apply Hx. by eapply list_elem_of_lookup_2.
Qed.

Lemma find_row_rows (cols : list string)
    (m : gmap KernelVersion (gset string)) (ks : list KernelVersion) k :
  find_row (version_label k) (row_of cols m <$> ks)
  = if decide (k ∈ ks) then Some (row_of cols m k) else None.
Proof.
  induction ks as [|k' ks IH].
  { by rewrite decide_False by apply not_elem_of_nil. }
  cbn [fmap list_fmap find_row].
  change (list_fmap _ _ (row_of cols m) ks) with (row_of cols m <$> ks).
  destruct (decide (head (row_of cols m k') = Some (version_label k)))
    as [Heq|Hne].
  - simpl in Heq. injection Heq as Heq. apply version_label_inj in Heq as ->.
    by rewrite decide_True by (by left).
  - rewrite IH. destruct (decide (k ∈ ks)) as [Hk|Hk].
    + by rewrite decide_True by (by right).
    + rewrite decide_False; [done|].
      intros [->|?]%elem_of_cons; [|done]. by apply Hne.
Qed.

(** Reading a table of the shape that [compute_table] builds, for any list
    of distinct columns and any list of keys. *)
Lemma cell_rows (cols : list string) (m : gmap KernelVersion (gset string))
    (ks : list KernelVersion) v d :
  NoDup cols →
  cell (("Kernel" :: cols) :: (row_of cols m <$> ks)) v d
  = if decide (v ∈ ks ∧ d ∈ cols) then Some (mark m v d) else None.
Proof.
  intros Hnd. cbn [cell tail].
  destruct (decide (d ∈ cols)) as [Hd|Hd].
  2:{ rewrite (index_of_None _ _ Hd). rewrite decide_False; [done|].
      by intros [_ ?]. }
  apply list_elem_of_lookup_1 in Hd as Hi. destruct Hi as [i Hi].
  rewrite (index_of_lookup _ _ _ Hnd Hi). cbn [mbind option_bind].
  rewrite find_row_rows.
  destruct (decide (v ∈ ks)) as [Hv|Hv].
  - rewrite (decide_True _ _ (conj Hv Hd)).
    cbn [mbind option_bind row_of tail].
    by rewrite list_lookup_fmap, Hi.
  - rewrite decide_False; [done|]. by intros [? _].
Qed.

Lemma cell_compute_table (m : gmap KernelVersion (gset string)) v d :
  cell (compute_table m) v d
  = if decide (v ∈ dom m ∧ d ∈ DRIVERS) then Some (mark m v d) else None.
Proof.
  rewrite compute_table_rows, (cell_rows _ _ _ _ _ DRIVERS_NoDup).
  destruct (decide (v ∈ dom m)) as [Hv|Hv].
  - assert (Hk : v ∈ sorted_reverse (map_to_list m).*1)
      by (by apply sorted_keys_dom).
    destruct (decide (d ∈ DRIVERS)) as [Hd|Hd].
    + by rewrite (decide_True _ _ (conj Hk Hd)), (decide_True _ _ (conj Hv Hd)).
    + rewrite !decide_False; [done|by intros [_ ?]..].
  - assert (Hk : v ∉ sorted_reverse (map_to_list m).*1)
      by (by rewrite sorted_keys_dom).
    rewrite !decide_False; [done|by intros [? _]..].
Qed.

(** ** The markdown serialisation *)

Lemma length_sapp (s t : string) :
  String.length (s +:+ t) = (String.length s + String.length t)%nat.
Proof. induction s as [|c s IH]; [done|]. rewrite sapp_cons. simpl. by rewrite IH. Qed.

Lemma length_repeat_char c n : String.length (repeat_char c n) = n.
Proof. induction n as [|n IH]; [done|]. simpl. by rewrite IH. Qed.

Lemma join_all_cons (x : string) (l : list string) :
  join_all (x :: l) = x +:+ join_all l.
Proof. done. Qed.

Lemma foldl_sapp {B} (f : B → string) (l : list B) (ans : string) :
  foldl (λ ans x, ans +:+ f x) ans l = ans +:+ join_all (f <$> l).
Proof.
  revert ans. induction l as [|x l IH]; intros ans; simpl.
  - by rewrite sapp_nil_r.
  - by rewrite IH, sapp_assoc.
Qed.

Lemma get_max_width_max (row : list string) :
  get_max_width row = max_list (String.length <$> row).
Proof.
  unfold get_max_width.
  enough (∀ acc, foldl (λ ans cell,
              if (ans <? String.length cell)%nat then String.length cell
              else ans) acc row
            = Nat.max acc (max_list (String.length <$> row))) as H.
  { by rewrite H. }
  induction row as [|cell row IH]; intros acc; simpl.
  - lia.
  - rewrite IH.
    change (list_fmap string nat String.length row) with (String.length <$> row).
    destruct (Nat.ltb_spec acc (String.length cell)); lia.
Qed.

Lemma pad_shape (al : alignment) (W : nat) (s : string) :
  ∃ l r, pad al W s = repeat_char " " l +:+ s +:+ repeat_char " " r ∧
         (l + r = W - String.length s)%nat.
Proof.
  unfold pad. eexists _, _. split; [done|].
  destruct al; [lia|lia|].
  pose proof (Nat.Div0.div_le_upper_bound (W - String.length s) 2
                (W - String.length s)). lia.
Qed.

Lemma length_pad (al : alignment) (W : nat) (s : string) :
  String.length (pad al W s) = Nat.max W (String.length s).
Proof.
  destruct (pad_shape al W s) as (l & r & -> & Hlr).
  rewrite !length_sapp, !length_repeat_char. lia.
Qed.

Lemma pad_long (al : alignment) (W : nat) (s : string) :
  (W ≤ String.length s)%nat → pad al W s = s.
Proof.
  intros Hlen. destruct (pad_shape al W s) as (l & r & -> & Hlr).
  assert (l = O) as -> by lia. assert (r = O) as -> by lia.
  simpl. by rewrite sapp_nil_l, sapp_nil_r.
Qed.

Lemma dump_rows_lines (W : nat) (rows : list (string * list string))
    (ans : string) :
  dump_rows W ((λ row, row.1 :: row.2) <$> rows) ans
  = Ok (ans +:+ join_all ((λ row, nl +:+ data_line W row) <$> rows)).
Proof.
  revert ans. induction rows as [|[label cells] rows IH]; intros ans.
  - simpl. by rewrite sapp_nil_r.
  - cbn [fmap list_fmap dump_rows first mbind result_bind fst snd tail].
    rewrite foldl_sapp.
    change (list_fmap _ _ ?f rows) with (f <$> rows). rewrite IH.
    f_equal. rewrite join_all_cons. unfold data_line. cbn [fst snd].
    by rewrite !sapp_assoc.
Qed.

Lemma foldl_const_sapp {B} (s : string) (l : list B) (ans : string) :
  foldl (λ ans _, ans +:+ s) ans l = ans +:+ join_all (replicate (List.length l) s).
Proof.
  revert ans. induction l as [|x l IH]; intros ans; simpl.
  - by rewrite sapp_nil_r.
  - by rewrite IH, sapp_assoc.
Qed.

Lemma dump_markdown_lines (header0 : string) (header : list string)
    (rows : list (string * list string)) :
  dump_markdown ((header0 :: header) :: ((λ row, row.1 :: row.2) <$> rows))
  = Ok (markdown (get_max_width (header0 :: header)) header0 header rows).
Proof.
  unfold dump_markdown.
  cbn [first mbind result_bind tail]. cbn zeta.
  rewrite foldl_const_sapp, foldl_sapp, dump_rows_lines.
  rewrite length_seq.
  replace (List.length (header0 :: header) - 1)%nat with (List.length header)
    by (simpl; lia).
  f_equal. unfold markdown, header_line, separator_line.
  by rewrite !sapp_assoc.
Qed.

(** ** The script on small inputs *)

Example catalog_patterns :
  Forall (λ entry, compile_regex entry.2 "c" = Ok (version_pattern entry.2 "c"))
         DRIVER_MAP.
Proof.
  eapply Forall_impl; [apply catalog_plain|].
  intros entry Hp. by apply compile_regex_plain.
Qed.

Example match_examples :
  re.match_ (version_pattern "e100" "c") "e100-5.15-ethercat.c"
  = Some ["5"; "15"] ∧
  re.match_ (version_pattern "e100" "c") "e100-05.015-ethercat.c"
  = Some ["05"; "015"] ∧
  re.match_ (version_pattern "e100" "c") "e1000-5.15-ethercat.c" = None ∧
  re.match_ (version_pattern "e100" "c") "e100-5.15-ethercat.cc" = None ∧
  re.match_ (version_pattern "e100" "c") "e100-5.x-ethercat.c" = None ∧
  re.match_ (version_pattern "e100" "c") ("e100-5.15-ethercat.c" +:+ nl)
  = Some ["5"; "15"] ∧
  re.match_ (version_pattern "e100" "c") ("e100-5.15-ethercat.c" +:+ nl +:+ nl)
  = None.
Proof. by vm_compute. Qed.

Example join_examples :
  join "devices" "igb" = "devices/igb" ∧ join "devices/" "igb" = "devices/igb" ∧
  join "" "igb" = "igb" ∧ join "devices" "/igb" = "/igb".
Proof. by vm_compute. Qed.

Example demo_table :
  main_table demo_tree "devices"
  = Ok [ ["Kernel"; "8139too"; "bcmgenet"; "dwmac-intel"; "e100"; "e1000";
          "e1000e"; "igb"; "igc"; "r8169"; "stmmac-pci"];
         ["6.1 "; "X"; "-"; "X"; "-"; "X"; "-"; "X"; "X"; "X"; "-"];
         ["6.0 "; "-"; "-"; "-"; "-"; "-"; "X"; "-"; "-"; "-"; "X"];
         ["5.15"; "-"; "-"; "-"; "X"; "-"; "-"; "-"; "-"; "X"; "-"] ].
Proof. by vm_compute. Qed.

Example empty_scan_table : compute_table ∅ = [ "Kernel" :: DRIVERS ].
Proof. by vm_compute. Qed.

Example markdown_small :
  dump_markdown [ ["Kernel"; "e100"]; ["5.15"; "X"] ]
  = Ok ("| Kernel |  e100  |" +:+ nl +:+
        "|-------:|:------:|" +:+ nl +:+
        "|   5.15 |   X    |").
Proof. by vm_compute. Qed.

(** A label longer than every header cell is written in full. *)
Example markdown_long_label :
  dump_markdown [ ["K"; "e"]; ["123.45"; "X"] ]
  = Ok ("| K | e |" +:+ nl +:+
        "|--:|:-:|" +:+ nl +:+
        "| 123.45 | X |").
Proof. by vm_compute. Qed.

(** Without a header row, or with an empty data row, indexing fails. *)
Example markdown_no_header :
  dump_markdown [] = Raise IndexError ∧
  dump_markdown [ ["K"]; [] ] = Raise IndexError.
Proof. by vm_compute. Qed.

(** ** File names of any code points: what the pattern matches *)

Lemma u_not_special (c : N) :
  unicode.is_special c = false →
  (c =? unicode.cp "$") = false ∧ (c =? unicode.cp ".") = false ∧
  (c =? unicode.cp re.backslash) = false ∧ (c =? unicode.cp "(") = false.
Proof.
  intros H.
  repeat split; apply N.eqb_neq; intros Hc; rewrite Hc in H;
    vm_compute in H; discriminate H.
Qed.

Lemma u_lex_plain (p r : list N) :
  unicode.plain p →
  unicode.lex (p ++ r) = (unicode.lits p ++.) <$> unicode.lex r.
Proof.
  induction p as [|c p IH]; intros Hp.
  - simpl. by destruct (unicode.lex r).
  - simpl in Hp. apply andb_True in Hp as [Hc Hp].
    apply negb_True, Is_true_false in Hc.
    destruct (u_not_special c Hc) as (H1 & H2 & H3 & H4).
    change ((c :: p) ++ r) with (c :: (p ++ r)). cbn [unicode.lex].
    rewrite H1, H2, H3, H4, Hc, (IH Hp).
    by destruct (unicode.lex r).
Qed.

Lemma u_lex_group (r : list N) :
  unicode.lex (unicode.codes "([\d]+)" ++ r)
  = cons unicode.Digits <$> unicode.lex r.
Proof. reflexivity. Qed.

Lemma u_lex_escaped_dot (r : list N) :
  unicode.lex (unicode.codes "\." ++ r)
  = cons (unicode.Lit (unicode.cp ".")) <$> unicode.lex r.
Proof. reflexivity. Qed.

Lemma u_lex_version_part (x : list N) :
  unicode.lex (unicode.codes "-([\d]+)\.([\d]+)-ethercat\." ++ x)
  = (λ l, unicode.Lit (unicode.cp "-") :: unicode.Digits
          :: unicode.Lit (unicode.cp ".") :: unicode.Digits
          :: unicode.lits (unicode.codes "-ethercat.") ++ l)
    <$> unicode.lex x.
Proof.
  change (unicode.codes "-([\d]+)\.([\d]+)-ethercat\." ++ x)
    with (unicode.codes "-" ++ unicode.codes "([\d]+)" ++ unicode.codes "\."
          ++ unicode.codes "([\d]+)" ++ unicode.codes "-ethercat"
          ++ unicode.codes "\." ++ x).
  rewrite (u_lex_plain (unicode.codes "-")) by exact I.
  rewrite u_lex_group, u_lex_escaped_dot, u_lex_group.
  rewrite (u_lex_plain (unicode.codes "-ethercat")) by exact I.
  rewrite u_lex_escaped_dot.
  by destruct (unicode.lex x).
Qed.

Lemma u_lex_end : unicode.lex (unicode.codes "$") = Some [unicode.Eol].
Proof. done. Qed.

Section unicode_names.

Variable decimal : N → option N.

Lemma u_compile_regex_plain (prefix ext : list N) :
  unicode.plain prefix → unicode.plain ext →
  unicode.compile_regex prefix ext = Ok (unicode.version_pattern prefix ext).
Proof.
  intros Hp He. unfold unicode.compile_regex.
  change (unicode.codes "^" ++ ?x) with (unicode.cp "^" :: x).
  cbn [unicode.compile]. rewrite N.eqb_refl.
  rewrite (u_lex_plain prefix _ Hp), u_lex_version_part,
    (u_lex_plain ext _ He), u_lex_end.
  done.
Qed.

Lemma u_digit_run_cons (s : list N) :
  unicode.digit_run decimal s ↔
  ∃ a r, s = a :: r ∧ unicode.is_digit decimal a ∧
         forallb (unicode.is_digit decimal) r.
Proof.
  unfold unicode.digit_run. destruct s as [|a r]; simpl.
  - split; [done|]. by intros (? & ? & ? & _).
  - rewrite andb_True. split; [intros [? ?]; eauto|].
    intros (a' & r' & Heq & ? & ?). by simplify_eq.
Qed.

Lemma u_digit_run_intro (a : N) (ds : list N) :
  unicode.is_digit decimal a → forallb (unicode.is_digit decimal) ds →
  unicode.digit_run decimal (a :: ds).
Proof. intros. apply u_digit_run_cons. eauto. Qed.

Lemma u_digit_run_all (ds : list N) :
  unicode.digit_run decimal ds → forallb (unicode.is_digit decimal) ds.
Proof.
  intros (a & r & -> & Ha & Hr)%u_digit_run_cons. simpl. by apply andb_True.
Qed.

Lemma u_exec_lits (p : list N) rest s g r :
  unicode.exec decimal (unicode.lits p ++ rest) s g = Some r ↔
  ∃ s', s = p ++ s' ∧ unicode.exec decimal rest s' g = Some r.
Proof.
  revert s. induction p as [|c p IH]; intros s.
  - split; [by exists s|]. by intros (s' & -> & H).
  - change (unicode.lits (c :: p) ++ rest)
      with (unicode.Lit c :: (unicode.lits p ++ rest)).
    cbn [unicode.exec]. destruct s as [|a s].
    { split; [done|]. by intros (s' & ? & _). }
    destruct (N.eqb_spec a c) as [->|Hne].
    + rewrite IH. split; intros (s' & Hs & H); exists s'; split; try done.
      * by rewrite Hs.
      * by simplify_eq/=.
    + split; [done|]. intros (s' & Hs & _). by simplify_eq/=.
Qed.

Lemma u_digits_loop_digit k s got r :
  unicode.digits_loop decimal k s got = Some r →
  ∃ a s', s = a :: s' ∧ unicode.is_digit decimal a.
Proof.
  destruct s as [|a s']; [done|]. cbn [unicode.digits_loop].
  destruct (unicode.is_digit decimal a) eqn:Ha; [|done]. intros _.
  exists a, s'. by rewrite Ha.
Qed.

Lemma u_digits_loop_spec k s got r :
  (∀ a s' got', unicode.is_digit decimal a → k (a :: s') got' = None) →
  unicode.digits_loop decimal k s got = Some r ↔
  ∃ ds s', unicode.digit_run decimal ds ∧ s = ds ++ s' ∧
           k s' (got ++ ds) = Some r.
Proof.
  intros Hk. revert got. induction s as [|a s IH]; intros got.
  { split; [done|]. intros (ds & s' & Hds & Hs & _).
    by apply u_digit_run_cons in Hds as (a & ds0 & -> & _). }
  cbn [unicode.digits_loop]. destruct (unicode.is_digit decimal a) eqn:Ha.
  2:{ split; [done|]. intros (ds & s' & Hds & Hs & _).
      apply u_digit_run_cons in Hds as (a' & ds0 & -> & Ha' & _).
      simplify_eq/=. by rewrite Ha in Ha'. }
  cbn zeta.
  destruct (unicode.digits_loop decimal k s (got ++ [a])) as [r0|] eqn:E.
  - split.
    + intros [= ->]. apply IH in E as (ds & s' & Hds & -> & Hr).
      exists (a :: ds), s'. split_and!; [|done|].
      * apply u_digit_run_intro; [by rewrite Ha|by apply u_digit_run_all].
      * by rewrite <- app_assoc in Hr.
    + intros (ds & s' & Hds & Hs & Hr).
      apply u_digit_run_cons in Hds as (a' & ds0 & -> & _ & Hds0).
      simplify_eq/=. destruct ds0 as [|b ds0].
      * simpl in E, Hr. apply u_digits_loop_digit in E as (b & s0 & -> & Hb).
        by rewrite (Hk b s0 _ Hb) in Hr.
      * f_equal. enough (Some r0 = Some r) by congruence.
        rewrite <- E. apply IH. exists (b :: ds0), s'.
        split_and!; [|done|by rewrite <- app_assoc].
        simpl in Hds0. apply andb_True in Hds0 as [? ?].
        by apply u_digit_run_intro.
  - split.
    + intros Hr. exists [a], s. split_and!; [|done..].
      apply u_digit_run_intro; [by rewrite Ha|done].
    + intros (ds & s' & Hds & Hs & Hr).
      apply u_digit_run_cons in Hds as (a' & ds0 & -> & _ & Hds0).
      simplify_eq/=. destruct ds0 as [|b ds0]; [done|].
      exfalso.
      enough (unicode.digits_loop decimal k ((b :: ds0) ++ s') (got ++ [a'])
              = Some r) by congruence.
      apply IH. exists (b :: ds0), s'.
      split_and!; [|done|by rewrite <- app_assoc].
      simpl in Hds0. apply andb_True in Hds0 as [? ?].
      by apply u_digit_run_intro.
Qed.

Lemma u_exec_digits (c : N) (q : list N) rest s g r :
  unicode.is_digit decimal c = false →
  unicode.exec decimal (unicode.Digits :: unicode.lits (c :: q) ++ rest) s g
  = Some r ↔
  ∃ ds s', unicode.digit_run decimal ds ∧ s = ds ++ s' ∧
           unicode.exec decimal (unicode.lits (c :: q) ++ rest) s' (g ++ [ds])
           = Some r.
Proof.
  intros Hc. cbn [unicode.exec]. rewrite u_digits_loop_spec; [done|].
  intros a s' got' Ha.
  change (unicode.lits (c :: q) ++ rest)
    with (unicode.Lit c :: (unicode.lits q ++ rest)).
  cbn [unicode.exec]. destruct (N.eqb_spec a c) as [->|]; [|done].
  by rewrite Hc in Ha.
Qed.

Lemma u_exec_eol s g r :
  unicode.exec decimal [unicode.Eol] s g = Some r ↔
  (s = [] ∨ s = [unicode.cp re.newline]) ∧ r = g.
Proof.
  cbn [unicode.exec]. destruct s as [|a [|b s]]; cbn [unicode.at_end].
  - split; [intros [= ->]; auto | intros [_ ->]; done].
  - destruct (N.eqb_spec a (unicode.cp re.newline)) as [->|Hne].
    + split; [intros [= ->]; auto | intros [_ ->]; done].
    + split; [done|]. intros [[?|?] _]; [done|]. by simplify_eq.
  - split; [done|]. by intros [[?|?] _].
Qed.

(** The two characters that follow the digit groups in the pattern are no
    decimal digits. *)
Hypothesis hyphen_no_digit : decimal (unicode.cp "-") = None.
Hypothesis dot_no_digit : decimal (unicode.cp ".") = None.

Lemma u_is_digit_hyphen : unicode.is_digit decimal (unicode.cp "-") = false.
Proof. unfold unicode.is_digit. rewrite hyphen_no_digit. done. Qed.

Lemma u_is_digit_dot : unicode.is_digit decimal (unicode.cp ".") = false.
Proof. unfold unicode.is_digit. rewrite dot_no_digit. done. Qed.

Lemma u_match_version_pattern (prefix ext file : list N) r :
  unicode.match_ decimal (unicode.version_pattern prefix ext) file = Some r ↔
  ∃ maj min rest,
    unicode.digit_run decimal maj ∧ unicode.digit_run decimal min ∧
    (rest = [] ∨ rest = [unicode.cp re.newline]) ∧
    file = prefix ++ unicode.codes "-" ++ maj ++ unicode.codes "." ++ min
           ++ unicode.codes "-ethercat." ++ ext ++ rest ∧
    r = [maj; min].
Proof.
  unfold unicode.match_, unicode.version_pattern.
  change (unicode.lits prefix ++ unicode.Lit (unicode.cp "-") :: unicode.Digits
          :: unicode.Lit (unicode.cp ".") :: unicode.Digits
          :: unicode.lits (unicode.codes "-ethercat.") ++ unicode.lits ext
          ++ [unicode.Eol])
    with (unicode.lits prefix ++ unicode.lits (unicode.codes "-")
          ++ unicode.Digits :: unicode.lits (unicode.cp "." :: [])
          ++ unicode.Digits
          :: unicode.lits (unicode.cp "-" :: unicode.codes "ethercat.")
          ++ unicode.lits ext ++ [unicode.Eol]).
  rewrite u_exec_lits. setoid_rewrite u_exec_lits.
  setoid_rewrite u_exec_digits; [|apply u_is_digit_dot].
  setoid_rewrite u_exec_lits.
  setoid_rewrite u_exec_digits; [|apply u_is_digit_hyphen].
  setoid_rewrite u_exec_lits. setoid_rewrite u_exec_lits.
  setoid_rewrite u_exec_eol. split.
  - intros (s1 & -> & s2 & -> & maj & s3 & Hmaj & -> & s4 & -> & min & s5 &
            Hmin & -> & s6 & -> & s7 & -> & Hend & ->).
    by exists maj, min, s7.
  - intros (maj & min & rest & Hmaj & Hmin & Hend & -> & ->).
    eexists. split; [done|]. eexists. split; [done|]. exists maj. eexists.
    split; [done|]. split; [done|]. eexists. split; [done|].
    exists min. eexists. split; [done|]. split; [done|].
    eexists. split; [done|]. exists rest. done.
Qed.

Lemma u_match_py_match (prefix ext file : list N) (v : KernelVersion) :
  unicode.py_match decimal prefix ext v file ↔
  ∃ maj min,
    unicode.match_ decimal (unicode.version_pattern prefix ext) file
    = Some [maj; min] ∧
    v = (unicode.int decimal maj, unicode.int decimal min).
Proof.
  unfold unicode.py_match, unicode.version_name. split.
  - intros [(maj & min & ? & ? & -> & ->)|(maj & min & ? & ? & -> & ->)];
      exists maj, min; (split; [|done]); apply u_match_version_pattern.
    + exists maj, min, []. auto.
    + exists maj, min, [unicode.cp re.newline]. auto.
  - intros (maj & min & Hm & ->).
    apply u_match_version_pattern in Hm
      as (maj' & min' & rest & ? & ? & [->| ->] & -> & Hr); simplify_eq;
      [left|right]; by exists maj', min'.
Qed.

Lemma u_filter_loop_spec (prefix ext : list N) (file_list : list (list N)) ans :
  ∃ vs,
    unicode.filter_loop decimal (unicode.version_pattern prefix ext)
      file_list ans = Ok vs ∧
    ∀ v, v ∈ vs ↔
         v ∈ ans ∨
         ∃ file, file ∈ file_list ∧ unicode.py_match decimal prefix ext v file.
Proof.
  revert ans. induction file_list as [|file rest IH]; intros ans.
  { exists ans. split; [done|]. intros v. split; [auto|].
    intros [?|(? & []%elem_of_nil & _)]. done. }
  cbn [unicode.filter_loop].
  destruct (unicode.match_ decimal (unicode.version_pattern prefix ext) file)
    as [m|] eqn:Hm.
  - pose proof Hm as Hm'.
    apply u_match_version_pattern in Hm'
      as (maj & min & tl & _ & _ & _ & _ & ->).
    cbn. destruct (IH ({[(unicode.int decimal maj, unicode.int decimal min)]}
                       ∪ ans)) as (vs & -> & Hvs).
    exists vs. split; [done|]. intros v.
    rewrite Hvs, elem_of_union, elem_of_singleton. split.
    + intros [[->|?]|(f & ? & ?)]; [right|by left|right].
      * exists file. split; [by left|]. apply u_match_py_match. eauto.
      * exists f. split; [by right|done].
    + intros [?|(f & [->|?]%elem_of_cons & Hf)]; [by left;right| |right; eauto].
      apply u_match_py_match in Hf as (maj' & min' & Hf & ->).
      rewrite Hm in Hf. simplify_eq. by left; left.
  - destruct (IH ans) as (vs & -> & Hvs). exists vs. split; [done|].
    intros v. rewrite Hvs. split.
    + intros [?|(f & ? & ?)]; [by left|right]. exists f. split; [by right|done].
    + intros [?|(f & [->|?]%elem_of_cons & Hf)]; [by left| |right; eauto].
      apply u_match_py_match in Hf as (maj' & min' & Hf & ->). congruence.
Qed.

(** [filter_versions] for a plain prefix and extension, on names of any
    code points: the versions of the names that the pattern accepts. *)
Lemma u_filter_versions_spec (file_list : list (list N))
    (prefix ext : list N) :
  unicode.plain prefix → unicode.plain ext →
  ∃ vs, unicode.filter_versions decimal file_list prefix ext = Ok vs ∧
    ∀ v, v ∈ vs ↔
         ∃ file, file ∈ file_list ∧ unicode.py_match decimal prefix ext v file.
Proof.
  intros Hp He. unfold unicode.filter_versions.
  rewrite (u_compile_regex_plain _ _ Hp He). cbn.
  destruct (u_filter_loop_spec prefix ext file_list ∅) as (vs & -> & Hvs).
  exists vs. split; [done|]. intros v. rewrite Hvs.
  split; [intros [[]%not_elem_of_empty|?]; done|auto].
Qed.

Lemma u_version_name_nl prefix ext v file :
  unicode.version_name decimal prefix ext v [unicode.cp re.newline] file →
  unicode.ends_in_newline file = true.
Proof.
  intros (maj & min & _ & _ & _ & ->). unfold unicode.ends_in_newline.
  apply bool_decide_eq_true. rewrite !app_assoc. apply last_snoc.
Qed.

Lemma u_py_match_full prefix ext v file :
  unicode.ends_in_newline file = false →
  unicode.py_match decimal prefix ext v file ↔
  unicode.full_match decimal prefix ext v file.
Proof.
  intros Hf. unfold unicode.py_match, unicode.full_match. split; [|auto].
  intros [?|H%u_version_name_nl]; [done|congruence].
Qed.

End unicode_names.

(** ** The two embeddings agree on names of 8-bit characters *)

Lemma u_codes_cons (c : ascii) (s : string) :
  unicode.codes (String c s) = unicode.cp c :: unicode.codes s.
Proof. reflexivity. Qed.

Lemma u_codes_app (a b : string) :
  unicode.codes (a +:+ b) = unicode.codes a ++ unicode.codes b.
Proof.
  induction a as [|c a IH]; [done|].
  rewrite sapp_cons, !u_codes_cons, IH. done.
Qed.

Lemma u_cp_eqb (a b : ascii) : (unicode.cp a =? unicode.cp b) = Ascii.eqb a b.
Proof.
  destruct (Ascii.eqb_spec a b) as [->|Hne]; [apply N.eqb_refl|].
  apply N.eqb_neq. intros H. apply Hne.
  apply (f_equal ascii_of_N) in H. unfold unicode.cp in H.
  by rewrite !ascii_N_embedding in H.
Qed.

Lemma u_is_special_cp (c : ascii) :
  unicode.is_special (unicode.cp c) = re.is_special c.
Proof. destruct c as [[] [] [] [] [] [] [] []]; reflexivity. Qed.

Lemma u_is_alnum_cp (c : ascii) :
  unicode.is_alnum (unicode.cp c) = re.is_alnum c.
Proof. reflexivity. Qed.

Lemma u_at_end_codes (s : string) :
  unicode.at_end (unicode.codes s) = re.at_end s.
Proof.
  destruct s as [|a [|b s]]; [done| |done].
  rewrite u_codes_cons. cbn [unicode.codes list_ascii_of_string fmap list_fmap].
  cbn [unicode.at_end re.at_end]. apply u_cp_eqb.
Qed.

Lemma u_fmap_cons_lex (i : re.item) (o : option re.pattern) :
  cons (unicode.of_item i) <$> (unicode.of_pattern <$> o)
  = unicode.of_pattern <$> (cons i <$> o).
Proof. by destruct o. Qed.

Lemma u_lex_codes_bounded (n : nat) (s : string) :
  (String.length s ≤ n)%nat →
  unicode.lex (unicode.codes s) = unicode.of_pattern <$> re.lex s.
Proof.
  revert s. induction n as [|n IH]; intros s Hn.
  { destruct s; [done|]. cbn [String.length] in Hn. lia. }
  destruct s as [|c r]; [done|].
  cbn [String.length] in Hn. rewrite u_codes_cons.
  cbn [unicode.lex re.lex]. rewrite !u_cp_eqb, u_is_special_cp.
  destruct (Ascii.eqb c "$").
  { by destruct r. }
  destruct (Ascii.eqb c ".").
  { rewrite IH by lia. apply (u_fmap_cons_lex re.AnyChar). }
  destruct (Ascii.eqb c re.backslash).
  { destruct r as [|e r']; [done|]. rewrite u_codes_cons, u_is_alnum_cp.
    destruct (re.is_alnum e); [done|].
    cbn [String.length] in Hn. rewrite IH by lia.
    apply (u_fmap_cons_lex (re.Lit e)). }
  destruct (Ascii.eqb c "(").
  { destruct r as [|c1 [|c2 [|c3 [|c4 [|c5 [|c6 r']]]]]]; try done.
    rewrite !u_codes_cons, !u_cp_eqb. cbn [String.eqb].
    cbn [String.length] in Hn.
    let b := eval vm_compute in re.backslash in change re.backslash with b.
    destruct (Ascii.eqb c1 "["); [|done].
    destruct (Ascii.eqb c2 _); [|done].
    destruct (Ascii.eqb c3 "d"); [|done].
    destruct (Ascii.eqb c4 "]"); [|done].
    destruct (Ascii.eqb c5 "+"); [|done].
    destruct (Ascii.eqb c6 ")"); [|done].
    cbn [andb]. rewrite IH by lia. apply (u_fmap_cons_lex re.Digits). }
  destruct (re.is_special c); [done|].
  rewrite IH by lia. apply (u_fmap_cons_lex (re.Lit c)).
Qed.

Lemma u_lex_codes (s : string) :
  unicode.lex (unicode.codes s) = unicode.of_pattern <$> re.lex s.
Proof. by apply (u_lex_codes_bounded (String.length s)). Qed.

Lemma u_compile_codes (s : string) :
  unicode.compile (unicode.codes s) = unicode.of_pattern <$> re.compile s.
Proof.
  destruct s as [|c r]; [done|]. rewrite u_codes_cons.
  cbn [unicode.compile re.compile]. rewrite u_cp_eqb.
  destruct (Ascii.eqb c "^"); [apply u_lex_codes|done].
Qed.

Lemma u_int_snoc (decimal : N → option N) (s : list N) (c : N) :
  unicode.int decimal (s ++ [c])
  = 10 * unicode.int decimal s + default 0 (decimal c).
Proof. unfold unicode.int. by rewrite foldl_app. Qed.

Lemma int_snoc (s : string) (c : ascii) :
  int (s +:+ String c "") = 10 * int s + (re.code c - 48).
Proof.
  unfold int.
  assert (H : list_ascii_of_string (s +:+ String c "")
              = list_ascii_of_string s ++ [c]).
  { induction s as [|a s IH]; [done|]. rewrite sapp_cons. cbn. by rewrite IH. }
  by rewrite H, foldl_app.
Qed.

Section agree.

Variable decimal : N → option N.
Hypothesis decimal_ascii : unicode.ascii_digits decimal.

Lemma u_is_digit_cp (a : ascii) :
  unicode.is_digit decimal (unicode.cp a) = re.is_digit a.
Proof.
  unfold unicode.is_digit. rewrite decimal_ascii.
  destruct (re.is_digit a).
  - by apply bool_decide_eq_true.
  - apply bool_decide_eq_false. by intros [? ?].
Qed.

Lemma u_digits_loop_codes (k : string → string → option (list string))
    (k' : list N → list N → option (list (list N))) (s got : string) :
  (∀ s0 got0,
     k' (unicode.codes s0) (unicode.codes got0)
     = fmap (M:=list) unicode.codes <$> k s0 got0) →
  unicode.digits_loop decimal k' (unicode.codes s) (unicode.codes got)
  = fmap (M:=list) unicode.codes <$> re.digits_loop k s got.
Proof.
  intros Hk. revert got. induction s as [|a s IH]; intros got; [done|].
  rewrite u_codes_cons. cbn [unicode.digits_loop re.digits_loop].
  rewrite u_is_digit_cp. destruct (re.is_digit a); [|done]. cbn zeta.
  assert (Hgot : unicode.codes got ++ [unicode.cp a]
                 = unicode.codes (got +:+ String a "")).
  { by rewrite u_codes_app. }
  rewrite Hgot, IH, Hk.
  by destruct (re.digits_loop k s (got +:+ String a "")).
Qed.

Lemma u_exec_codes (p : re.pattern) (s : string) (g : list string) :
  unicode.exec decimal (unicode.of_pattern p) (unicode.codes s)
    (unicode.codes <$> g)
  = fmap (M:=list) unicode.codes <$> re.exec p s g.
Proof.
  revert s g. induction p as [|i p IH]; intros s g; [done|].
  change (unicode.of_pattern (i :: p))
    with (unicode.of_item i :: unicode.of_pattern p).
  destruct i; cbn [unicode.of_item unicode.exec re.exec].
  - destruct s as [|a s]; [done|]. rewrite u_codes_cons, u_cp_eqb.
    destruct (Ascii.eqb a c); [apply IH|done].
  - destruct s as [|a s]; [done|]. rewrite u_codes_cons, u_cp_eqb.
    destruct (Ascii.eqb a re.newline); [done|apply IH].
  - change (@nil N) with (unicode.codes "").
    apply u_digits_loop_codes. intros s0 got0.
    rewrite <- IH. by rewrite fmap_app.
  - rewrite u_at_end_codes. destruct (re.at_end s); [apply IH|done].
Qed.

(** On the text of a group, which is a run of ASCII digits, the two
    embeddings of [int] agree. *)
Lemma u_digits_loop_int (k : string → string → option (list string))
    (s got : string) (r : list string) :
  unicode.int decimal (unicode.codes got) = int got →
  (∀ s0 got0, unicode.int decimal (unicode.codes got0) = int got0 →
              k s0 got0 = Some r →
              Forall (λ x, unicode.int decimal (unicode.codes x) = int x) r) →
  re.digits_loop k s got = Some r →
  Forall (λ x, unicode.int decimal (unicode.codes x) = int x) r.
Proof.
  intros Hgot Hk. revert got Hgot. induction s as [|a s IH]; intros got Hgot.
  { done. }
  cbn [re.digits_loop]. destruct (re.is_digit a) eqn:Ha; [|done]. cbn zeta.
  assert (Hgot' : unicode.int decimal (unicode.codes (got +:+ String a ""))
                  = int (got +:+ String a "")).
  { rewrite u_codes_app.
    change (unicode.codes (String a "")) with [unicode.cp a].
    by rewrite u_int_snoc, int_snoc, Hgot, decimal_ascii, Ha. }
  destruct (re.digits_loop k s (got +:+ String a "")) as [r0|] eqn:E.
  - intros [= <-]. by apply (IH _ Hgot').
  - by apply Hk.
Qed.

Lemma u_exec_int (p : re.pattern) (s : string) (g r : list string) :
  Forall (λ x, unicode.int decimal (unicode.codes x) = int x) g →
  re.exec p s g = Some r →
  Forall (λ x, unicode.int decimal (unicode.codes x) = int x) r.
Proof.
  revert s g. induction p as [|i p IH]; intros s g Hg.
  { by intros [= <-]. }
  destruct i; cbn [re.exec].
  - destruct s as [|a s]; [done|]. destruct (Ascii.eqb a c); [by apply IH|done].
  - destruct s as [|a s]; [done|].
    destruct (Ascii.eqb a re.newline); [done|by apply IH].
  - apply u_digits_loop_int; [done|]. intros s0 got0 Hgot0.
    apply IH. apply Forall_app. split; [done|]. by constructor.
  - destruct (re.at_end s); [by apply IH|done].
Qed.

Lemma u_filter_loop_codes (rex : re.pattern) (file_list : list string)
    (ans : gset KernelVersion) :
  unicode.filter_loop decimal (unicode.of_pattern rex)
    (unicode.codes <$> file_list) ans
  = filter_loop rex file_list ans.
Proof.
  revert ans. induction file_list as [|file rest IH]; intros ans; [done|].
  cbn [fmap list_fmap unicode.filter_loop filter_loop].
  unfold unicode.match_, re.match_.
  change (@nil (list N)) with (unicode.codes <$> @nil string).
  rewrite u_exec_codes.
  destruct (re.exec rex file []) as [m|] eqn:Hm; [|apply IH].
  apply u_exec_int in Hm; [|constructor].
  destruct m as [|g1 [|g2 m]]; [done..|].
  apply Forall_cons in Hm as [H1 Hm]. apply Forall_cons in Hm as [H2 _].
  cbn. rewrite H1, H2. apply IH.
Qed.

(** On names, a prefix and an extension of 8-bit characters the embedding
    on code points computes what the embedding on 8-bit characters
    computes, whatever the prefix and the extension are. *)
Lemma u_filter_versions_codes (file_list : list string)
    (prefix ext : string) :
  unicode.filter_versions decimal (unicode.codes <$> file_list)
    (unicode.codes prefix) (unicode.codes ext)
  = filter_versions file_list prefix ext.
Proof.
  unfold unicode.filter_versions, filter_versions,
    unicode.compile_regex, compile_regex.
  rewrite <- !u_codes_app, u_compile_codes.
  destruct (re.compile _) as [rex|]; [|done].
  cbn. apply u_filter_loop_codes.
Qed.

End agree.

Lemma u_decimal_14_ascii : unicode.ascii_digits unicode.decimal_14.
Proof. intros [[] [] [] [] [] [] [] []]; reflexivity. Qed.

Example u_arabic_indic_digits :
  unicode.filter_versions unicode.decimal_14 [unicode.arabic_indic_name]
    (unicode.codes "e100") (unicode.codes "c") = Ok {[ (5, 15) ]}.
Proof. apply (bool_decide_unpack _). by vm_compute. Qed.

(** With the digits of Unicode 14.0 the embedding on code points extends
    the embedding on 8-bit characters. *)
Lemma u_filter_versions_latin1 (file_list : list string)
    (prefix ext : string) :
  unicode.filter_versions unicode.decimal_14 (unicode.codes <$> file_list)
    (unicode.codes prefix) (unicode.codes ext)
  = filter_versions file_list prefix ext.
Proof. apply u_filter_versions_codes, u_decimal_14_ascii. Qed.

(** A superscript two (U+00B2) is a digit but no decimal digit: [\d] does
    not take it. *)
Example u_superscript_two :
  unicode.filter_versions unicode.decimal_14
    [unicode.codes "e100-" ++ [178] ++ unicode.codes ".1-ethercat.c"]
    (unicode.codes "e100") (unicode.codes "c") = Ok ∅.
Proof. apply (bool_decide_unpack _). by vm_compute. Qed.

(** Digits of two scripts in one run: [int] reads U+0661 U+0035 as 15. *)
Example u_mixed_scripts :
  unicode.filter_versions unicode.decimal_14
    [unicode.codes "e100-5." ++ [1633; 53] ++ unicode.codes "-ethercat.c"]
    (unicode.codes "e100") (unicode.codes "c") = Ok {[ (5, 15) ]}.
Proof. apply (bool_decide_unpack _). by vm_compute. Qed.

(** ** The scan and the table together *)

Lemma listed_dir_subdir drivers_dir subdir :
  subdir ≠ "." → listed_dir drivers_dir subdir = join drivers_dir subdir.
Proof.
  intros Hne. unfold listed_dir.
  destruct (String.eqb_spec subdir "."); [done|done].
Qed.

(** What a mark of the computed table stands for: the pattern of some
    entry of that driver accepts a file of the directory the entry lists. *)
Lemma cell_marks_py_match fs drivers_dir m v d :
  get_all_drivers fs drivers_dir = Ok m → v ∈ dom m → d ∈ DRIVERS →
  cell (compute_table m) v d
  = Some (if decide (d ∈ default ∅ (m !! v)) then "X" else "-") ∧
  (d ∈ default ∅ (m !! v) ↔
     ∃ entry, entry ∈ DRIVER_MAP ∧ entry.1.2 = d ∧ finds fs drivers_dir entry v).
Proof.
  intros Hm Hv Hd. split.
  - by rewrite cell_compute_table, (decide_True _ _ (conj Hv Hd)).
  - by apply get_all_drivers_spec.
Qed.

(** ** Properties of the specification *)

(** C2. Whatever the scan found, also nothing, the header row of the
    computed table is the caption "Kernel" followed by the driver names of
    the catalog, each once, in ascending order of their characters. *)
Theorem header_row (m : gmap KernelVersion (gset string)) :
  head (compute_table m) = Some ("Kernel" :: DRIVERS) ∧
  DRIVERS = ["8139too"; "bcmgenet"; "dwmac-intel"; "e100"; "e1000"; "e1000e";
             "igb"; "igc"; "r8169"; "stmmac-pci"] ∧
  StronglySorted (strict String.le) DRIVERS ∧
  (∀ d, d ∈ DRIVERS ↔ ∃ entry, entry ∈ DRIVER_MAP ∧ entry.1.2 = d).
Proof.
  split_and!.
  - by rewrite compute_table_rows.
  - apply DRIVERS_eq.
  - rewrite DRIVERS_eq. apply (bool_decide_unpack _). by vm_compute.
  - intros d. unfold DRIVERS, sorted.
    rewrite merge_sort_Permutation, elem_of_elements, elem_of_list_to_set,
      list_elem_of_fmap.
    split; intros (entry & ? & ?); by exists entry.
Qed.

Lemma labels_rows (cols : list string) (m : gmap KernelVersion (gset string))
    (header : list string) (ks : list KernelVersion) :
  labels (header :: (row_of cols m <$> ks)) = version_label <$> ks.
Proof.
  unfold labels. cbn [tail]. induction ks as [|k ks IH]; [done|].
  cbn. by f_equal.
Qed.

Lemma labels_compute_table (m : gmap KernelVersion (gset string)) :
  labels (compute_table m)
  = version_label <$> sorted_reverse (map_to_list m).*1.
Proof. by rewrite compute_table_rows, labels_rows. Qed.

(** The rows of a table whose keys are the three versions 6.1, 5.15 and
    6.0, in any order of insertion. *)
Lemma three_versions_order (m : gmap KernelVersion (gset string)) :
  dom m = {[ (6, 1); (5, 15); (6, 0) ]} →
  sorted_reverse (map_to_list m).*1 = [(6, 1); (6, 0); (5, 15)].
Proof.
  intros Hdom. apply sorted_reverse_unique.
  - apply NoDup_Permutation.
    + apply NoDup_fst_map_to_list.
    + apply (bool_decide_unpack _). by vm_compute.
    + intros v. rewrite keys_dom, Hdom.
      rewrite !elem_of_union, !elem_of_singleton, !elem_of_cons, elem_of_nil.
      tauto.
  - apply (bool_decide_unpack _). by vm_compute.
Qed.

(** C3. The data rows of the computed table are in strictly descending
    order of their versions, compared as pairs (major first, then minor);
    the versions (6,1), (5,15) and (6,0) come out as 6.1, 6.0, 5.15. *)
Theorem rows_descending (m : gmap KernelVersion (gset string))
    (s1 s2 s3 : gset string) :
  (∃ ks, labels (compute_table m) = version_label <$> ks ∧
         tail (compute_table m) = row_of DRIVERS m <$> ks ∧
         (∀ v, v ∈ ks ↔ v ∈ dom m) ∧
         StronglySorted (flip version_lt) ks) ∧
  labels (compute_table {[ (6, 1) := s1; (5, 15) := s2; (6, 0) := s3 ]})
  = ["6.1 "; "6.0 "; "5.15"].
Proof.
  split.
  - exists (sorted_reverse (map_to_list m).*1). split_and!.
    + apply labels_compute_table.
    + by rewrite compute_table_rows.
    + apply sorted_keys_dom.
    + apply sorted_reverse_strict, NoDup_fst_map_to_list.
  - rewrite labels_compute_table, three_versions_order; [done|].
    by rewrite !dom_insert_L, dom_singleton_L, (assoc_L (∪)).
Qed.

(** C5. The label of the data row of version (major, minor) is the major
    number, a dot, and the minor number in a field of at least two
    characters, a shorter minor number being followed by a space: (6,1)
    gives "6.1 " and (5,15) gives "5.15". *)
Theorem row_label_format (m : gmap KernelVersion (gset string)) (maj min : N) :
  (maj, min) ∈ dom m →
  let field := pretty min +:+ repeat_char " " (2 - String.length (pretty min)) in
  let label := pretty maj +:+ "." +:+ field in
  find_row label (tail (compute_table m))
  = Some (label :: (mark m (maj, min) <$> DRIVERS)) ∧
  String.length field = Nat.max 2 (String.length (pretty min)) ∧
  version_label (6, 1) = "6.1 " ∧
  version_label (5, 15) = "5.15".
Proof.
  intros Hv field label.
  assert (Hl : label = version_label (maj, min)).
  { unfold label, field, version_label. cbn [fst snd]. by rewrite pad_left. }
  split_and!; [| |done..].
  - rewrite Hl, compute_table_rows. cbn [tail]. rewrite find_row_rows.
    by rewrite decide_True by (by apply sorted_keys_dom).
  - unfold field. rewrite length_sapp, length_repeat_char. lia.
Qed.

Lemma row_label_format_witness :
  (6, 1) ∈ dom ({[ (6, 1) := {[ "igb" ]} ]} : gmap KernelVersion (gset string)) ∧
  find_row "6.1 " (tail (compute_table {[ (6, 1) := {[ "igb" ]} ]}))
  = Some ("6.1 " :: (mark {[ (6, 1) := {[ "igb" ]} ]} (6, 1) <$> DRIVERS)).
Proof.
  assert (H : (6, 1) ∈ dom ({[ (6, 1) := {[ "igb" ]} ]}
                              : gmap KernelVersion (gset string))).
  { apply (bool_decide_unpack _). by vm_compute. }
  split; [exact H|].
  exact (proj1 (row_label_format {[ (6, 1) := {[ "igb" ]} ]} 6 1 H)).
Defined.

(** C9. Every data row of the computed table has one cell per cell of the
    header, the marks standing in the order of the header's driver columns,
    and no two data rows carry the same version label. *)
Theorem table_shape (m : gmap KernelVersion (gset string)) :
  head (compute_table m) = Some ("Kernel" :: DRIVERS) ∧
  Forall (λ row, List.length row = S (List.length DRIVERS))
         (tail (compute_table m)) ∧
  (∃ ks, tail (compute_table m)
         = (λ key, version_label key :: (mark m key <$> DRIVERS)) <$> ks) ∧
  NoDup (labels (compute_table m)) ∧
  Inj (=) (=) version_label.
Proof.
  rewrite compute_table_rows. cbn [head tail]. split_and!.
  - done.
  - apply Forall_fmap, Forall_true. intros key. unfold row_of. cbn.
    by rewrite length_fmap.
  - by eexists.
  - rewrite labels_rows. apply NoDup_fmap_2.
    + intros a b. apply version_label_inj.
    + rewrite sorted_reverse_perm. apply NoDup_fst_map_to_list.
  - intros a b. apply version_label_inj.
Qed.

(** C6. [dump_markdown] pads with one width W, the greatest length of a
    cell of the header row; the data rows have no part in it.  Every cell
    is written in a field of width W, and a cell longer than W is written
    in full: the output is the serialisation the specification describes,
    and no error is raised. *)
Theorem dump_markdown_width (header0 : string) (header : list string)
    (rows : list (string * list string)) :
  let W := get_max_width (header0 :: header) in
  W = max_list (String.length <$> header0 :: header) ∧
  dump_markdown ((header0 :: header) :: ((λ row, row.1 :: row.2) <$> rows))
  = Ok (markdown W header0 header rows) ∧
  (∀ al cell, ∃ l r,
     cell_fmt al W cell
     = "| " +:+ (repeat_char " " l +:+ cell +:+ repeat_char " " r) +:+ " " ∧
     (l + r = W - String.length cell)%nat ∧
     String.length (pad al W cell) = Nat.max W (String.length cell)).
Proof.
  intros W. split_and!.
  - apply get_max_width_max.
  - apply dump_markdown_lines.
  - intros al cell. destruct (pad_shape al W cell) as (l & r & Hpad & Hlr).
    exists l, r. split_and!; [|done|apply length_pad].
    unfold cell_fmt. by rewrite Hpad.
Qed.

(** C8. When the root directory, or the subdirectory of a catalog entry
    that names one, is missing or cannot be listed, [get_all_drivers]
    returns no table: it ends with the exception [StopIteration], which
    nothing catches. *)
Theorem missing_directory_raises (fs : gmap string listing)
    (drivers_dir : string) :
  (fs !! drivers_dir = None ∨
   ∃ subdir driver_name file_prefix,
     (subdir, driver_name, file_prefix) ∈ DRIVER_MAP ∧ subdir ≠ "." ∧
     fs !! join drivers_dir subdir = None) →
  get_all_drivers fs drivers_dir = Raise StopIteration ∧
  main_table fs drivers_dir = Raise StopIteration.
Proof.
  intros Hmissing.
  enough (get_all_drivers fs drivers_dir = Raise StopIteration) as H.
  { split; [done|]. unfold main_table. by rewrite H. }
  pose proof (get_all_drivers_result fs drivers_dir) as Hres.
  destruct (get_all_drivers fs drivers_dir) as [m|e].
  - exfalso. destruct Hres as [[d0 H0] Hall].
    destruct Hmissing as [Hroot|(subdir & name & prefix & Hin & Hne & Hsub)].
    + congruence.
    + unfold all_listed in Hall.
      apply (proj1 (Forall_forall _ _) Hall) in Hin as [d Hd].
      cbn [fst] in Hd. rewrite (listed_dir_subdir _ _ Hne) in Hd. congruence.
  - by destruct Hres as [-> _].
Qed.

Lemma missing_directory_raises_witness :
  (demo_tree_no_igb !! "devices" = None ∨
   ∃ subdir driver_name file_prefix,
     (subdir, driver_name, file_prefix) ∈ DRIVER_MAP ∧ subdir ≠ "." ∧
     demo_tree_no_igb !! join "devices" subdir = None) ∧
  get_all_drivers demo_tree_no_igb "devices" = Raise StopIteration ∧
  main_table demo_tree_no_igb "devices" = Raise StopIteration.
Proof.
  assert (H : demo_tree_no_igb !! "devices" = None ∨
              ∃ subdir driver_name file_prefix,
                (subdir, driver_name, file_prefix) ∈ DRIVER_MAP ∧ subdir ≠ "." ∧
                demo_tree_no_igb !! join "devices" subdir = None).
  { right. exists "igb", "igb", "igb_main". split_and!.
    - apply (bool_decide_unpack _). by vm_compute.
    - discriminate.
    - by vm_compute. }
  split; [exact H|]. exact (missing_directory_raises _ _ H).
Defined.

(** ** Same files, same table *)

Lemma same_files_lookup fs1 fs2 dir :
  same_files fs1 fs2 →
  match fs1 !! dir, fs2 !! dir with
  | Some d1, Some d2 => filenames d1 ≡ₚ filenames d2
  | None, None => True
  | _, _ => False
  end.
Proof.
  intros H. specialize (H dir). unfold option_relation in H.
  by destruct (fs1 !! dir), (fs2 !! dir).
Qed.

Lemma same_files_is_Some fs1 fs2 dir :
  same_files fs1 fs2 → is_Some (fs1 !! dir) → is_Some (fs2 !! dir).
Proof.
  intros H [d1 H1]. pose proof (same_files_lookup _ _ dir H) as Hd.
  rewrite H1 in Hd. destruct (fs2 !! dir); [by eexists|done].
Qed.

Lemma same_files_finds fs1 fs2 drivers_dir entry v :
  same_files fs1 fs2 →
  finds fs1 drivers_dir entry v → finds fs2 drivers_dir entry v.
Proof.
  intros H (d1 & file & H1 & Hfile & Hmatch).
  pose proof (same_files_lookup _ _ (listed_dir drivers_dir entry.1.1) H) as Hd.
  rewrite H1 in Hd.
  destruct (fs2 !! listed_dir drivers_dir entry.1.1) as [d2|] eqn:H2; [|done].
  exists d2, file. split_and!; [done| |done]. by rewrite <- Hd.
Qed.

Lemma same_files_sym fs1 fs2 : same_files fs1 fs2 → same_files fs2 fs1.
Proof.
  intros H dir. pose proof (same_files_lookup _ _ dir H) as Hd.
  unfold option_relation. destruct (fs1 !! dir), (fs2 !! dir); done.
Qed.

Lemma same_files_all_listed fs1 fs2 drivers_dir entries :
  same_files fs1 fs2 →
  all_listed fs1 drivers_dir entries → all_listed fs2 drivers_dir entries.
Proof.
  intros H Hall. unfold all_listed. eapply Forall_impl; [exact Hall|].
  intros entry. by apply same_files_is_Some.
Qed.

(** Two dicts of sets with the same keys and the same members are equal. *)
Lemma dict_eq (m1 m2 : gmap KernelVersion (gset string)) :
  (∀ v, v ∈ dom m1 ↔ v ∈ dom m2) →
  (∀ v d, d ∈ default ∅ (m1 !! v) ↔ d ∈ default ∅ (m2 !! v)) →
  m1 = m2.
Proof.
  intros Hdom Hmem. apply map_eq. intros v.
  specialize (Hdom v). rewrite !elem_of_dom in Hdom. specialize (Hmem v).
  destruct (m1 !! v) as [s1|], (m2 !! v) as [s2|]; simpl in *.
  - f_equal. by apply set_eq.
  - by destruct (proj1 Hdom) as [? ?].
  - by destruct (proj2 Hdom) as [? ?].
  - done.
Qed.

(** C7. Two runs over an unchanged directory tree give identical tables:
    the table depends on the tree alone, and not even on the order in which
    a run sees the names of a directory. *)
Theorem scan_twice_same_table (fs1 fs2 : gmap string listing)
    (devices_dir : string) :
  same_files fs1 fs2 →
  main_table fs1 devices_dir = main_table fs2 devices_dir.
Proof.
  intros H. pose proof (same_files_sym _ _ H) as H'. unfold main_table.
  pose proof (get_all_drivers_result fs1 devices_dir) as R1.
  pose proof (get_all_drivers_result fs2 devices_dir) as R2.
  pose proof (get_all_drivers_spec fs1 devices_dir) as S1.
  pose proof (get_all_drivers_spec fs2 devices_dir) as S2.
  destruct (get_all_drivers fs1 devices_dir) as [m1|e1],
           (get_all_drivers fs2 devices_dir) as [m2|e2]; cbn.
  - f_equal. f_equal. specialize (S1 m1 eq_refl). specialize (S2 m2 eq_refl).
    apply dict_eq.
    + intros v. rewrite (proj1 (S1 v)), (proj1 (S2 v)).
      split; intros (entry & ? & ?); exists entry;
        (split; [done|]); by eapply same_files_finds.
    + intros v d. rewrite (proj2 (S1 v)), (proj2 (S2 v)).
      split; intros (entry & ? & ? & ?); exists entry;
        (split_and!; [done..|]); by eapply same_files_finds.
  - exfalso. destruct R1 as [? ?], R2 as [_ R2]. apply R2.
    split; [by eapply same_files_is_Some|by eapply same_files_all_listed].
  - exfalso. destruct R2 as [? ?], R1 as [_ R1]. apply R1.
    split; [by eapply same_files_is_Some|by eapply same_files_all_listed].
  - destruct R1 as [-> _], R2 as [-> _]. done.
Qed.

Lemma scan_twice_same_table_witness :
  same_files demo_tree demo_tree_shuffled ∧
  main_table demo_tree "devices" = main_table demo_tree_shuffled "devices".
Proof.
  assert (H : same_files demo_tree demo_tree_shuffled).
  { apply (bool_decide_unpack _). by vm_compute. }
  split; [exact H|]. exact (scan_twice_same_table _ _ "devices" H).
Defined.

(** ** The two entries of the [r8169] driver *)

Lemma r8169_entries (entry : string * string * string) :
  entry ∈ DRIVER_MAP ∧ entry.1.2 = "r8169" ↔
  entry = (".", "r8169", "r8169") ∨ entry = ("r8169", "r8169", "r8169_main").
Proof.
  split.
  - intros [Hin Hname]. unfold DRIVER_MAP in Hin.
    repeat (apply elem_of_cons in Hin as [->|Hin]; [by auto|]).
    by apply elem_of_nil in Hin.
  - intros [-> | ->]; (split; [|done]); apply (bool_decide_unpack _);
      by vm_compute.
Qed.

Lemma finds_versions fs drivers_dir subdir name prefix d vs v :
  plain prefix →
  fs !! listed_dir drivers_dir subdir = Some d →
  filter_versions (filenames d) prefix "c" = Ok vs →
  finds fs drivers_dir (subdir, name, prefix) v ↔ v ∈ vs.
Proof.
  intros Hp Hd Hvs.
  destruct (filter_versions_spec (filenames d) prefix "c" Hp I)
    as (vs' & Hvs' & Hin).
  rewrite Hvs in Hvs'. simplify_eq. rewrite Hin. unfold finds. cbn [fst snd].
  rewrite Hd. split.
  - intros (d' & file & ? & ? & ?). simplify_eq. by exists file.
  - intros (file & ? & ?). by exists d, file.
Qed.

(** C10. Two entries of the catalog carry the driver name "r8169": the
    root directory with prefix "r8169" and the subdirectory "r8169" with
    prefix "r8169_main".  The table has one "r8169" column, and in the row
    of a version its cell is "X" exactly when the version is among those
    that [filter_versions] finds for the first entry or among those it
    finds for the second, and "-" otherwise. *)
Theorem r8169_column (fs : gmap string listing) (drivers_dir : string)
    (m : gmap KernelVersion (gset string)) (v : KernelVersion) :
  get_all_drivers fs drivers_dir = Ok m →
  v ∈ dom m →
  filter (λ entry, entry.1.2 = "r8169") DRIVER_MAP
  = [(".", "r8169", "r8169"); ("r8169", "r8169", "r8169_main")] ∧
  List.length (filter (λ d, d = "r8169") ("Kernel" :: DRIVERS)) = 1%nat ∧
  ∃ d0 d1 vs0 vs1,
    fs !! drivers_dir = Some d0 ∧
    fs !! join drivers_dir "r8169" = Some d1 ∧
    filter_versions (filenames d0) "r8169" "c" = Ok vs0 ∧
    filter_versions (filenames d1) "r8169_main" "c" = Ok vs1 ∧
    cell (compute_table m) v "r8169"
    = Some (if decide (v ∈ vs0 ∪ vs1) then "X" else "-").
Proof.
  intros Hm Hv. split_and!; [by vm_compute..|].
  pose proof (get_all_drivers_result fs drivers_dir) as Hres.
  rewrite Hm in Hres. destruct Hres as [[d0 H0] Hall].
  assert (Hin : ("r8169", "r8169", "r8169_main") ∈ DRIVER_MAP)
    by (apply (bool_decide_unpack _); by vm_compute).
  apply (proj1 (Forall_forall _ _) Hall) in Hin as [d1 H1].
  cbn [fst] in H1.
  destruct (filter_versions_spec (filenames d0) "r8169" "c" I I)
    as (vs0 & Hvs0 & _).
  destruct (filter_versions_spec (filenames d1) "r8169_main" "c" I I)
    as (vs1 & Hvs1 & _).
  exists d0, d1, vs0, vs1. split_and!; [done..|].
  assert (Hd : "r8169" ∈ DRIVERS)
    by (rewrite DRIVERS_eq; apply (bool_decide_unpack _); by vm_compute).
  destruct (cell_marks_py_match fs drivers_dir m v "r8169" Hm Hv Hd)
    as [-> Hmark].
  f_equal. apply decide_ext. rewrite Hmark, elem_of_union.
  rewrite <- (finds_versions fs drivers_dir "." "r8169" "r8169" d0 vs0 v I H0 Hvs0).
  rewrite <- (finds_versions fs drivers_dir "r8169" "r8169" "r8169_main"
                d1 vs1 v I H1 Hvs1).
  split.
  - intros (entry & Hin & Hname & Hf).
    destruct (proj1 (r8169_entries entry) (conj Hin Hname)) as [-> | ->]; auto.
  - intros [Hf|Hf];
      [exists (".", "r8169", "r8169")
      |exists ("r8169", "r8169", "r8169_main")];
      (split_and!; [|done|done]); apply (bool_decide_unpack _); by vm_compute.
Qed.

Lemma r8169_column_witness :
  get_all_drivers demo_tree "devices" = Ok demo_dict ∧ (5, 15) ∈ dom demo_dict ∧
  ∃ d0 d1 vs0 vs1,
    demo_tree !! "devices" = Some d0 ∧
    demo_tree !! join "devices" "r8169" = Some d1 ∧
    filter_versions (filenames d0) "r8169" "c" = Ok vs0 ∧
    filter_versions (filenames d1) "r8169_main" "c" = Ok vs1 ∧
    cell (compute_table demo_dict) (5, 15) "r8169"
    = Some (if decide ((5, 15) ∈ vs0 ∪ vs1) then "X" else "-").
Proof.
  assert (Hm : get_all_drivers demo_tree "devices" = Ok demo_dict)
    by (apply (bool_decide_unpack _); by vm_compute).
  assert (Hv : (5, 15) ∈ dom demo_dict)
    by (apply (bool_decide_unpack _); by vm_compute).
  split; [exact Hm|]. split; [exact Hv|].
  exact (proj2 (proj2 (r8169_column demo_tree "devices" _ (5, 15) Hm Hv))).
Defined.

(** ** Names that match in full *)

Lemma endswith_snoc (x : string) (c c' : ascii) :
  endswith c' (x +:+ String c "") = Ascii.eqb c c'.
Proof.
  induction x as [|a x IH]; [done|]. rewrite sapp_cons.
  destruct (x +:+ String c "") as [|b r] eqn:E; [by destruct x|]. done.
Qed.

(** A name that matches in full, for the extension [c], ends in [c]. *)
Lemma full_match_no_newline prefix v file :
  full_match prefix "c" v file → endswith re.newline file = false.
Proof.
  intros (maj & min & _ & _ & _ & ->).
  change ("c" +:+ "") with (String "c" "").
  rewrite <- !sapp_assoc. by rewrite endswith_snoc.
Qed.

(** ** [filter_versions] on names of any code points *)

(** C4, as stated, fails for a prefix with a character that is special in
    a pattern: the prefix is put into the pattern as it is, so the dot of
    [e.00] stands for any character, and the file of another prefix,
    [e100], contributes its version. *)
Lemma filter_versions_dot_prefix :
  ∃ vs,
    unicode.filter_versions unicode.decimal_14
      [unicode.codes "e100-5.15-ethercat.c"]
      (unicode.codes "e.00") (unicode.codes "c") = Ok vs ∧
    (5, 15) ∈ vs ∧
    ¬ ∃ file, file ∈ [unicode.codes "e100-5.15-ethercat.c"] ∧
              unicode.full_match unicode.decimal_14
                (unicode.codes "e.00") (unicode.codes "c") (5, 15) file.
Proof.
  exists {[ (5, 15) ]}. split_and!.
  - apply (bool_decide_unpack _). by vm_compute.
  - by apply elem_of_singleton.
  - intros (file & ->%list_elem_of_singleton & maj & min & _ & _ & _ & Hname).
    apply (f_equal (λ l, l !! 1%nat)) in Hname. vm_compute in Hname.
    discriminate Hname.
Qed.

(** C4, amended. Names are strings of any code points, and a digit is
    whatever the table [decimal] of the interpreter gives a value, in which
    the hyphen and the dot have none.  For a prefix and an extension
    without characters that are special in a pattern, and file names that
    do not end in a newline, [filter_versions] returns exactly the pairs
    (major, minor) for which some name of the list is
    [<prefix>-<digits>.<digits>-ethercat.<ext>] from its first character
    to its last, the two digit runs being major and minor in decimal. *)
Theorem filter_versions_plain_prefix (decimal : N → option N)
    (file_list : list (list N)) (prefix ext : list N) :
  decimal (unicode.cp "-") = None → decimal (unicode.cp ".") = None →
  unicode.plain prefix → unicode.plain ext →
  Forall (λ file, unicode.ends_in_newline file = false) file_list →
  ∃ vs, unicode.filter_versions decimal file_list prefix ext = Ok vs ∧
    ∀ v, v ∈ vs ↔
         ∃ file, file ∈ file_list ∧
                 unicode.full_match decimal prefix ext v file.
Proof.
  intros Hhyphen Hdot Hp He Hfiles.
  destruct (u_filter_versions_spec decimal Hhyphen Hdot file_list prefix ext
              Hp He) as (vs & Hvs & Hin).
  exists vs. split; [done|]. intros v. rewrite Hin.
  split; intros (file & Hfile & Hmatch); exists file; (split; [done|]).
  - apply u_py_match_full; [|done].
    by apply (proj1 (Forall_forall _ _) Hfiles).
  - by left.
Qed.

Lemma filter_versions_plain_prefix_witness :
  unicode.decimal_14 (unicode.cp "-") = None ∧
  unicode.decimal_14 (unicode.cp ".") = None ∧
  unicode.plain (unicode.codes "e100") ∧ unicode.plain (unicode.codes "c") ∧
  Forall (λ file, unicode.ends_in_newline file = false)
    [unicode.arabic_indic_name; unicode.codes "e100-6.1-ethercat.c";
     unicode.codes "e1000-5.15-ethercat.c"; unicode.codes "e100-6.1-orig.c"] ∧
  ∃ vs,
    unicode.filter_versions unicode.decimal_14
      [unicode.arabic_indic_name; unicode.codes "e100-6.1-ethercat.c";
       unicode.codes "e1000-5.15-ethercat.c"; unicode.codes "e100-6.1-orig.c"]
      (unicode.codes "e100") (unicode.codes "c") = Ok vs ∧
    ∀ v, v ∈ vs ↔
         ∃ file,
           file ∈ [unicode.arabic_indic_name;
                   unicode.codes "e100-6.1-ethercat.c";
                   unicode.codes "e1000-5.15-ethercat.c";
                   unicode.codes "e100-6.1-orig.c"] ∧
           unicode.full_match unicode.decimal_14
             (unicode.codes "e100") (unicode.codes "c") v file.
Proof.
  assert (H : Forall (λ file, unicode.ends_in_newline file = false)
                [unicode.arabic_indic_name;
                 unicode.codes "e100-6.1-ethercat.c";
                 unicode.codes "e1000-5.15-ethercat.c";
                 unicode.codes "e100-6.1-orig.c"])
    by (repeat constructor).
  split; [reflexivity|]. split; [reflexivity|].
  split; [exact I|]. split; [exact I|]. split; [exact H|].
  exact (filter_versions_plain_prefix unicode.decimal_14 _
           (unicode.codes "e100") (unicode.codes "c") eq_refl eq_refl I I H).
Defined.

(** ** A file name with a newline after the extension *)

Lemma newline_tree_files :
  map_Forall (λ _ d, Forall (λ file, endswith re.newline file = true)
                            (filenames d)) newline_tree.
Proof. apply (bool_decide_unpack _). by vm_compute. Qed.

(** C1 at the tree [newline_tree]: the scan marks driver [e100] for
    version 5.15, and no file of the tree, in whatever directory, has a
    name that matches [<prefix>-5.15-ethercat.c] in full, for whatever
    prefix: the only candidate ends in a newline, which [$] lets pass. *)
Theorem trailing_newline_marks_cell :
  ∃ m, get_all_drivers newline_tree "devices" = Ok m ∧
       cell (compute_table m) (5, 15) "e100" = Some "X" ∧
       ¬ ∃ dir d file prefix,
           newline_tree !! dir = Some d ∧ file ∈ filenames d ∧
           full_match prefix "c" (5, 15) file.
Proof.
  exists {[ (5, 15) := {[ "e100" ]} ]}. split_and!.
  - apply (bool_decide_unpack _). by vm_compute.
  - by vm_compute.
  - intros (dir & d & file & prefix & Hd & Hfile & Hmatch).
    apply full_match_no_newline in Hmatch.
    apply newline_tree_files in Hd.
    apply (proj1 (Forall_forall _ _) Hd) in Hfile. congruence.
Qed.

(** ** Further properties of the script *)

(** *** [get_max_width] *)

Lemma cells_fit (row : list string) :
  Forall (λ cell, (String.length cell ≤ get_max_width row)%nat) row.
Proof.
  rewrite get_max_width_max. apply Forall_forall. intros cell Hcell.
  apply max_list_elem_of_le, list_elem_of_fmap. by exists cell.
Qed.

(** X1. [get_max_width] returns a width that no cell of the row exceeds and
    that some cell of a non-empty row has; for the empty row it is 0. *)
Theorem get_max_width_bounds (row : list string) :
  Forall (λ cell, (String.length cell ≤ get_max_width row)%nat) row ∧
  (row = [] ∧ get_max_width row = O ∨
   ∃ cell, cell ∈ row ∧ String.length cell = get_max_width row).
Proof.
  split; [apply cells_fit|]. rewrite get_max_width_max.
  destruct row as [|cell0 row]; [by left|right].
  assert (Hne : String.length <$> cell0 :: row ≠ []) by done.
  apply max_list_elem_of, list_elem_of_fmap in Hne as (cell & Hlen & Hcell).
  by exists cell.
Qed.

(** *** When [dump_markdown] fails *)

Lemma dump_rows_result (W : nat) (rows : list (list string)) (ans : string) :
  match dump_rows W rows ans with
  | Ok _ => Forall (λ row, row ≠ []) rows
  | Raise e => e = IndexError ∧ [] ∈ rows
  end.
Proof.
  revert ans. induction rows as [|row rows IH]; intros ans; [by constructor|].
  destruct row as [|row0 cells].
  - cbn. split; [done|by left].
  - cbn [dump_rows first mbind result_bind]. cbn zeta.
    match goal with |- context [dump_rows W rows ?a] => specialize (IH a) end.
    destruct (dump_rows W rows _).
    + by constructor.
    + destruct IH as [-> ?]. split; [done|by right].
Qed.

(** X2. [dump_markdown] succeeds exactly on a table that has a header row
    with at least one cell and whose data rows all have at least one cell.
    On any other table it raises [IndexError]: without a header row, with
    an empty header row, or with an empty data row. *)
Theorem dump_markdown_result (table_data : list (list string)) :
  match dump_markdown table_data with
  | Ok _ =>
    ∃ header0 header, head table_data = Some (header0 :: header) ∧
                      Forall (λ row, row ≠ []) (tail table_data)
  | Raise e =>
    e = IndexError ∧
    (table_data = [] ∨ head table_data = Some [] ∨ [] ∈ tail table_data)
  end.
Proof.
  destruct table_data as [|[|header0 header] rows].
  - cbn. auto.
  - cbn. auto.
  - unfold dump_markdown. cbn [first mbind result_bind tail]. cbn zeta.
    match goal with |- context [dump_rows ?W rows ?a] =>
      pose proof (dump_rows_result W rows a) as H;
      destruct (dump_rows W rows a) end.
    + exists header0, header. by split.
    + destruct H as [-> ?]. split; [done|]. right. by right.
Qed.

(** *** Alignment of the lines *)

Lemma length_cell_fmt (al : alignment) (W : nat) (cell : string) :
  (String.length cell ≤ W)%nat →
  String.length (cell_fmt al W cell) = (W + 3)%nat.
Proof.
  intros Hlen. unfold cell_fmt.
  rewrite !length_sapp, length_pad. cbn [String.length]. lia.
Qed.

Lemma length_join_all (k : nat) (l : list string) :
  Forall (λ s, String.length s = k) l →
  String.length (join_all l) = (k * List.length l)%nat.
Proof.
  induction 1 as [|s l Hs Hl IH]; [simpl; lia|].
  rewrite join_all_cons, length_sapp, IH, Hs. cbn [List.length]. nia.
Qed.

Lemma length_cells_line (al : alignment) (W : nat) (cell0 : string)
    (cells : list string) :
  (String.length cell0 ≤ W)%nat →
  Forall (λ cell, (String.length cell ≤ W)%nat) cells →
  String.length (cell_fmt al W cell0
                 +:+ join_all (cell_fmt AlignCenter W <$> cells) +:+ "|")
  = ((W + 3) * S (List.length cells) + 1)%nat.
Proof.
  intros H0 Hcells.
  rewrite !length_sapp, (length_cell_fmt _ _ _ H0).
  rewrite (length_join_all (W + 3)).
  - rewrite length_fmap. cbn [String.length]. nia.
  - apply Forall_fmap. eapply Forall_impl; [exact Hcells|].
    intros cell Hcell. by apply length_cell_fmt.
Qed.

Lemma length_separator_line (W columns : nat) :
  String.length (separator_line W columns)
  = ((W + 3) * S columns + 1)%nat.
Proof.
  unfold separator_line.
  rewrite !length_sapp, length_repeat_char, (length_join_all (W + 3)).
  - rewrite length_replicate. cbn [String.length]. nia.
  - apply Forall_replicate.
    rewrite !length_sapp, length_repeat_char. cbn [String.length]. lia.
Qed.

(** X3. The header line and the separator line of the markdown output
    always have the same length, (W + 3) times the number of columns plus
    one, and so has the line of every data row that has as many cells as
    the header, none longer than W. *)
Theorem markdown_lines_aligned (header0 : string) (header : list string)
    (rows : list (string * list string)) :
  let W := get_max_width (header0 :: header) in
  let L := ((W + 3) * S (List.length header) + 1)%nat in
  Forall (λ row, (String.length row.1 ≤ W)%nat ∧
                 Forall (λ cell, (String.length cell ≤ W)%nat) row.2 ∧
                 List.length row.2 = List.length header) rows →
  dump_markdown ((header0 :: header) :: ((λ row, row.1 :: row.2) <$> rows))
  = Ok (header_line W header0 header +:+ nl
        +:+ separator_line W (List.length header)
        +:+ join_all ((λ row, nl +:+ data_line W row) <$> rows)) ∧
  String.length (header_line W header0 header) = L ∧
  String.length (separator_line W (List.length header)) = L ∧
  Forall (λ row, String.length (data_line W row) = L) rows.
Proof.
  intros W L Hrows.
  pose proof (cells_fit (header0 :: header)) as Hhead.
  apply Forall_cons in Hhead as [H0 Hhead]. fold W in H0, Hhead.
  split_and!.
  - apply dump_markdown_lines.
  - unfold header_line. by apply length_cells_line.
  - apply length_separator_line.
  - eapply Forall_impl; [exact Hrows|].
    intros [label cells] (Hl & Hc & Hn). unfold data_line, L. cbn [fst snd] in *.
    rewrite <- Hn. by apply length_cells_line.
Qed.

Lemma markdown_lines_aligned_witness :
  Forall (λ row : string * list string,
            (String.length row.1 ≤ get_max_width ["Kernel"; "e100"])%nat ∧
            Forall (λ cell, (String.length cell
                             ≤ get_max_width ["Kernel"; "e100"])%nat) row.2 ∧
            List.length row.2 = List.length ["e100"]) [("5.15", ["X"])] ∧
  String.length (data_line (get_max_width ["Kernel"; "e100"]) ("5.15", ["X"]))
  = 19%nat.
Proof.
  assert (H : Forall (λ row : string * list string,
            (String.length row.1 ≤ get_max_width ["Kernel"; "e100"])%nat ∧
            Forall (λ cell, (String.length cell
                             ≤ get_max_width ["Kernel"; "e100"])%nat) row.2 ∧
            List.length row.2 = List.length ["e100"]) [("5.15", ["X"])]).
  { repeat constructor; vm_compute; lia. }
  split; [exact H|].
  pose proof (markdown_lines_aligned "Kernel" ["e100"] [("5.15", ["X"])] H)
    as (_ & _ & _ & Hrow).
  by apply Forall_cons in Hrow as [Hrow _].
Defined.

(** *** The rows of a computed table *)

Lemma compute_table_pairs (m : gmap KernelVersion (gset string)) :
  compute_table m
  = ("Kernel" :: DRIVERS)
    :: ((λ row : string * list string, row.1 :: row.2)
        <$> ((λ key, (version_label key, mark m key <$> DRIVERS))
             <$> sorted_reverse (map_to_list m).*1)).
Proof. rewrite compute_table_rows. f_equal. by rewrite <- list_fmap_compose. Qed.

(** X4. The table has one data row for every key of the dict and no other:
    its length is one more than the size of the dict, so the table of the
    empty dict is the header row alone, and a label stands in it exactly
    when its version is a key. *)
Theorem one_row_per_key (m : gmap KernelVersion (gset string))
    (v : KernelVersion) :
  List.length (compute_table m) = S (size m) ∧
  compute_table ∅ = [ "Kernel" :: DRIVERS ] ∧
  (version_label v ∈ labels (compute_table m) ↔ v ∈ dom m).
Proof.
  split_and!.
  - rewrite compute_table_rows. cbn [List.length]. f_equal.
    rewrite length_fmap, sorted_reverse_perm, length_fmap.
    apply length_map_to_list.
  - rewrite compute_table_rows, map_to_list_empty. done.
  - rewrite labels_compute_table, <- sorted_keys_dom. split.
    + intros (k & Hk%version_label_inj & Hin)%list_elem_of_fmap. by subst.
    + intros Hin. apply list_elem_of_fmap. by exists v.
Qed.

(** X5. [dump_markdown] accepts every table that [compute_table] returns:
    the two compose without an [IndexError], whatever the dict. *)
Theorem dump_markdown_compute_table (m : gmap KernelVersion (gset string)) :
  dump_markdown (compute_table m)
  = Ok (markdown (get_max_width ("Kernel" :: DRIVERS)) "Kernel" DRIVERS
          ((λ key, (version_label key, mark m key <$> DRIVERS))
           <$> sorted_reverse (map_to_list m).*1)).
Proof. rewrite compute_table_pairs. apply dump_markdown_lines. Qed.

(** *** The scan as a whole *)

Lemma all_listed_catalog (fs : gmap string listing) (drivers_dir : string) :
  is_Some (fs !! drivers_dir) ∧ all_listed fs drivers_dir DRIVER_MAP ↔
  is_Some (fs !! drivers_dir) ∧
  Forall (λ subdir, is_Some (fs !! join drivers_dir subdir))
         ["stmmac"; "e1000"; "e1000e"; "genet"; "igb"; "igc"; "r8169"].
Proof.
  unfold all_listed, DRIVER_MAP. rewrite !Forall_cons, !Forall_nil.
  unfold listed_dir. cbn [fst snd String.eqb Ascii.eqb Bool.eqb]. tauto.
Qed.

(** X6. [get_all_drivers] returns a dict exactly when the root directory
    and the seven subdirectories of the catalog can be listed; what the
    directories hold plays no part in that. *)
Theorem scan_succeeds_iff (fs : gmap string listing) (drivers_dir : string) :
  (∃ m, get_all_drivers fs drivers_dir = Ok m) ↔
  is_Some (fs !! drivers_dir) ∧
  Forall (λ subdir, is_Some (fs !! join drivers_dir subdir))
         ["stmmac"; "e1000"; "e1000e"; "genet"; "igb"; "igc"; "r8169"].
Proof.
  rewrite <- all_listed_catalog.
  pose proof (get_all_drivers_result fs drivers_dir) as Hres.
  destruct (get_all_drivers fs drivers_dir) as [m|e].
  - split; [done|]. by exists m.
  - destruct Hres as [_ Hno]. split; [by intros [m ?]|done].
Qed.

Lemma DRIVERS_names (d : string) :
  d ∈ DRIVERS ↔ ∃ entry, entry ∈ DRIVER_MAP ∧ entry.1.2 = d.
Proof.
  unfold DRIVERS, sorted.
  rewrite merge_sort_Permutation, elem_of_elements, elem_of_list_to_set,
    list_elem_of_fmap.
  split; intros (entry & ? & ?); by exists entry.
Qed.

(** X7. In the dict that [get_all_drivers] returns, no version has an
    empty set of drivers and every driver is a name of the catalog.  So in
    the table every data row has at least one "X", and its cells after the
    label are all "X" or "-". *)
Theorem scan_rows_marked (fs : gmap string listing) (drivers_dir : string)
    (m : gmap KernelVersion (gset string)) :
  get_all_drivers fs drivers_dir = Ok m →
  map_Forall (λ _ s, s ≠ ∅ ∧ s ⊆ list_to_set DRIVERS) m ∧
  Forall (λ row, "X" ∈ tail row ∧
                 Forall (λ c, c = "X" ∨ c = "-") (tail row))
         (tail (compute_table m)).
Proof.
  intros Hm. pose proof (get_all_drivers_spec fs drivers_dir m Hm) as Hspec.
  assert (Hsets : map_Forall (λ _ s, s ≠ ∅ ∧ s ⊆ list_to_set DRIVERS) m).
  { intros v s Hs. destruct (Hspec v) as [Hdom Hmem]. rewrite Hs in Hmem.
    simpl in Hmem. split.
    - assert (Hv : v ∈ dom m) by (apply elem_of_dom; by exists s).
      apply Hdom in Hv as (entry & Hin & Hf).
      assert (Hs' : entry.1.2 ∈ s) by (apply Hmem; by exists entry).
      intros ->. by apply not_elem_of_empty in Hs'.
    - intros d Hd. apply elem_of_list_to_set, DRIVERS_names.
      apply Hmem in Hd as (entry & ? & ? & _). by exists entry. }
  split; [done|].
  rewrite compute_table_rows. cbn [tail]. apply Forall_fmap, Forall_forall.
  intros k Hk. unfold row_of. cbn [tail compose].
  apply sorted_keys_dom, elem_of_dom in Hk as [s Hs].
  destruct (Hsets k s Hs) as [Hne Hsub]. split.
  - apply set_choose_L in Hne as [d Hd].
    apply list_elem_of_fmap. exists d. split.
    + unfold mark. rewrite Hs. simpl. by rewrite decide_True.
    + apply Hsub in Hd. by apply elem_of_list_to_set in Hd.
  - apply Forall_fmap, Forall_true. intros d. unfold mark. cbn.
    case_decide; auto.
Qed.

Lemma scan_rows_marked_witness :
  get_all_drivers demo_tree "devices" = Ok demo_dict ∧
  map_Forall (λ _ s, s ≠ ∅ ∧ s ⊆ list_to_set DRIVERS) demo_dict ∧
  Forall (λ row, "X" ∈ tail row ∧
                 Forall (λ c, c = "X" ∨ c = "-") (tail row))
         (tail (compute_table demo_dict)).
Proof.
  assert (Hm : get_all_drivers demo_tree "devices" = Ok demo_dict)
    by (apply (bool_decide_unpack _); by vm_compute).
  split; [exact Hm|]. exact (scan_rows_marked _ _ _ Hm).
Defined.

(** X8. When the directories exist and none holds a file, the scan
    returns the empty dict and the table is the header row alone. *)
Theorem scan_without_files (fs : gmap string listing) (drivers_dir : string)
    (m : gmap KernelVersion (gset string)) :
  get_all_drivers (without_files fs) drivers_dir = Ok m →
  m = ∅ ∧
  main_table (without_files fs) drivers_dir = Ok [ "Kernel" :: DRIVERS ].
Proof.
  intros Hm.
  assert (m = ∅) as ->.
  { apply map_empty. intros v. apply not_elem_of_dom. intros Hv.
    apply (get_all_drivers_spec _ _ _ Hm) in Hv
      as (entry & _ & d & file & Hd & Hfile & _).
    unfold without_files in Hd. rewrite lookup_fmap in Hd.
    destruct (fs !! _); simplify_eq/=. by apply elem_of_nil in Hfile. }
  split; [done|]. unfold main_table. rewrite Hm. cbn.
  by rewrite compute_table_rows, map_to_list_empty.
Qed.

Lemma scan_without_files_witness :
  get_all_drivers (without_files demo_tree) "devices" = Ok ∅ ∧
  main_table (without_files demo_tree) "devices" = Ok [ "Kernel" :: DRIVERS ].
Proof.
  assert (Hm : get_all_drivers (without_files demo_tree) "devices" = Ok ∅)
    by (apply (bool_decide_unpack _); by vm_compute).
  split; [exact Hm|]. exact (proj2 (scan_without_files _ _ _ Hm)).
Defined.

(** *** [add_driver] *)

(** X10. [add_driver] puts the driver into the set of every version it is
    given, starting from the empty set where the dict has no such key; the
    other keys keep their sets, and no key and no driver is ever lost. *)
Theorem add_driver_law (versions : gset KernelVersion) (driver : string)
    (t : gmap KernelVersion (gset string)) (v : KernelVersion) :
  add_driver versions driver t !! v
  = (if decide (v ∈ versions) then Some ({[driver]} ∪ default ∅ (t !! v))
     else t !! v) ∧
  dom (add_driver versions driver t) = dom t ∪ versions ∧
  default ∅ (t !! v) ⊆ default ∅ (add_driver versions driver t !! v).
Proof.
  split_and!.
  - apply add_driver_lookup.
  - apply set_eq. intros v'. rewrite add_driver_dom, elem_of_union. done.
  - intros d Hd. apply add_driver_mem. by left.
Qed.

(** X11. Adding twice is adding once, adding for no version changes
    nothing, and two additions can be swapped. *)
Theorem add_driver_algebra (vs1 vs2 : gset KernelVersion) (d1 d2 : string)
    (t : gmap KernelVersion (gset string)) :
  add_driver vs1 d1 (add_driver vs1 d1 t) = add_driver vs1 d1 t ∧
  add_driver ∅ d1 t = t ∧
  add_driver vs1 d1 (add_driver vs2 d2 t)
  = add_driver vs2 d2 (add_driver vs1 d1 t).
Proof.
  split_and!; apply map_eq; intros v; rewrite ?add_driver_lookup.
  - case_decide; [|done]. simpl. f_equal.
    by rewrite (assoc_L (∪)), (idemp_L (∪)).
  - by rewrite decide_False by apply not_elem_of_empty.
  - repeat case_decide; simpl; try done. f_equal.
    by rewrite !(assoc_L (∪)), (comm_L (∪) {[d1]}).
Qed.

(** X12. The loop over the catalog gives the same result for the entries
    in any order. *)
Theorem catalog_order_irrelevant (fs : gmap string listing)
    (drivers_dir : string) (d0 : listing)
    (entries1 entries2 : list (string * string * string))
    (t : gmap KernelVersion (gset string)) :
  Forall (λ entry, plain entry.2) entries1 →
  entries1 ≡ₚ entries2 →
  fs !! drivers_dir = Some d0 →
  scan_entries fs drivers_dir (filenames d0) entries1 t
  = scan_entries fs drivers_dir (filenames d0) entries2 t.
Proof.
  intros Hp1 Hperm H0.
  assert (Hp2 : Forall (λ entry, plain entry.2) entries2)
    by (by rewrite <- Hperm).
  pose proof (scan_entries_result fs drivers_dir d0 entries1 t Hp1 H0) as R1.
  pose proof (scan_entries_result fs drivers_dir d0 entries2 t Hp2 H0) as R2.
  pose proof (scan_entries_spec fs drivers_dir d0 entries1 t) as S1.
  pose proof (scan_entries_spec fs drivers_dir d0 entries2 t) as S2.
  unfold all_listed in R1, R2.
  destruct (scan_entries fs drivers_dir (filenames d0) entries1 t) as [m1|e1],
           (scan_entries fs drivers_dir (filenames d0) entries2 t) as [m2|e2].
  - f_equal. specialize (S1 m1 Hp1 H0 eq_refl).
    specialize (S2 m2 Hp2 H0 eq_refl). apply dict_eq.
    + intros v. rewrite (proj1 (S1 v)), (proj1 (S2 v)).
      by setoid_rewrite Hperm.
    + intros v d. rewrite (proj2 (S1 v)), (proj2 (S2 v)).
      by setoid_rewrite Hperm.
  - destruct R2 as [_ R2]. destruct R2. by rewrite <- Hperm.
  - destruct R1 as [_ R1]. destruct R1. by rewrite Hperm.
  - destruct R1 as [-> _], R2 as [-> _]. done.
Qed.

Lemma catalog_order_irrelevant_witness :
  Forall (λ entry : string * string * string, plain entry.2) DRIVER_MAP ∧
  DRIVER_MAP ≡ₚ reverse DRIVER_MAP ∧
  demo_tree !! "devices" = Some
    (Listing ["e1000"; "e1000e"; "genet"; "igb"; "igc"; "r8169"; "stmmac"]
       ["Kbuild.in"; "e100-5.15-ethercat.c"; "e100-5.15-orig.c";
        "r8169-5.15-ethercat.c"; "8139too-6.1-ethercat.c"; "ecdev.h"]) ∧
  scan_entries demo_tree "devices"
    ["Kbuild.in"; "e100-5.15-ethercat.c"; "e100-5.15-orig.c";
     "r8169-5.15-ethercat.c"; "8139too-6.1-ethercat.c"; "ecdev.h"]
    DRIVER_MAP ∅
  = scan_entries demo_tree "devices"
      ["Kbuild.in"; "e100-5.15-ethercat.c"; "e100-5.15-orig.c";
       "r8169-5.15-ethercat.c"; "8139too-6.1-ethercat.c"; "ecdev.h"]
      (reverse DRIVER_MAP) ∅.
Proof.
  assert (H1 : Forall (λ entry : string * string * string, plain entry.2)
                 DRIVER_MAP) by (repeat constructor).
  assert (H2 : DRIVER_MAP ≡ₚ reverse DRIVER_MAP)
    by (symmetry; apply reverse_Permutation).
  assert (H3 : demo_tree !! "devices" = Some
    (Listing ["e1000"; "e1000e"; "genet"; "igb"; "igc"; "r8169"; "stmmac"]
       ["Kbuild.in"; "e100-5.15-ethercat.c"; "e100-5.15-orig.c";
        "r8169-5.15-ethercat.c"; "8139too-6.1-ethercat.c"; "ecdev.h"]))
    by (by vm_compute).
  split; [exact H1|]. split; [exact H2|]. split; [exact H3|].
  exact (catalog_order_irrelevant demo_tree "devices" _ _ _ ∅ H1 H2 H3).
Defined.

(** *** [filter_versions] *)

(** X13. For a plain prefix and extension, the versions of a list of names
    put together from two lists are the versions of the one united with
    the versions of the other. *)
Theorem filter_versions_app (l1 l2 : list string) (prefix ext : string) :
  plain prefix → plain ext →
  ∃ vs1 vs2,
    filter_versions l1 prefix ext = Ok vs1 ∧
    filter_versions l2 prefix ext = Ok vs2 ∧
    filter_versions (l1 ++ l2) prefix ext = Ok (vs1 ∪ vs2).
Proof.
  intros Hp He.
  destruct (filter_versions_spec l1 prefix ext Hp He) as (vs1 & H1 & Hin1).
  destruct (filter_versions_spec l2 prefix ext Hp He) as (vs2 & H2 & Hin2).
  destruct (filter_versions_spec (l1 ++ l2) prefix ext Hp He)
    as (vs & H & Hin).
  exists vs1, vs2. split_and!; [done..|]. rewrite H. f_equal.
  apply set_eq. intros v. rewrite elem_of_union, Hin, Hin1, Hin2.
  setoid_rewrite elem_of_app. split.
  - intros (file & [?|?] & ?); [left|right]; by exists file.
  - intros [(file & ? & ?)|(file & ? & ?)]; exists file; auto.
Qed.

Lemma filter_versions_app_witness :
  plain "e100" ∧ plain "c" ∧
  ∃ vs1 vs2,
    filter_versions ["e100-5.15-ethercat.c"] "e100" "c" = Ok vs1 ∧
    filter_versions ["e100-6.1-ethercat.c"; "ecdev.h"] "e100" "c" = Ok vs2 ∧
    filter_versions
      (["e100-5.15-ethercat.c"] ++ ["e100-6.1-ethercat.c"; "ecdev.h"])
      "e100" "c" = Ok (vs1 ∪ vs2).
Proof.
  split; [exact I|]. split; [exact I|].
  exact (filter_versions_app ["e100-5.15-ethercat.c"]
           ["e100-6.1-ethercat.c"; "ecdev.h"] "e100" "c" I I).
Defined.

(** X14. For a plain prefix and extension, [filter_versions] depends on
    which names the list holds, not on their order nor on how often a name
    is listed. *)
Theorem filter_versions_names (l1 l2 : list string) (prefix ext : string) :
  plain prefix → plain ext →
  list_to_set (C := gset string) l1 = list_to_set l2 →
  filter_versions l1 prefix ext = filter_versions l2 prefix ext.
Proof.
  intros Hp He Hset.
  destruct (filter_versions_spec l1 prefix ext Hp He) as (vs1 & -> & Hin1).
  destruct (filter_versions_spec l2 prefix ext Hp He) as (vs2 & -> & Hin2).
  f_equal. apply set_eq. intros v. rewrite Hin1, Hin2.
  assert (Hmem : ∀ file, file ∈ l1 ↔ file ∈ l2).
  { intros file.
    by rewrite <- (elem_of_list_to_set (C := gset string)), Hset,
      elem_of_list_to_set. }
  by setoid_rewrite Hmem.
Qed.

Lemma filter_versions_names_witness :
  plain "e100" ∧ plain "c" ∧
  list_to_set (C := gset string)
    ["e100-5.15-ethercat.c"; "ecdev.h"; "e100-5.15-ethercat.c"]
  = list_to_set ["ecdev.h"; "e100-5.15-ethercat.c"] ∧
  filter_versions ["e100-5.15-ethercat.c"; "ecdev.h"; "e100-5.15-ethercat.c"]
    "e100" "c"
  = filter_versions ["ecdev.h"; "e100-5.15-ethercat.c"] "e100" "c".
Proof.
  assert (H : list_to_set (C := gset string)
                ["e100-5.15-ethercat.c"; "ecdev.h"; "e100-5.15-ethercat.c"]
              = list_to_set ["ecdev.h"; "e100-5.15-ethercat.c"])
    by (apply (bool_decide_unpack _); by vm_compute).
  split; [exact I|]. split; [exact I|]. split; [exact H|].
  exact (filter_versions_names _ _ "e100" "c" I I H).
Defined.

(** *** From a version to a file name and back *)

Lemma int_foldl (s : string) :
  int s = foldl int_step 0 (list_ascii_of_string s).
Proof. done. Qed.

Lemma chars_app (s t : string) :
  list_ascii_of_string (s +:+ t)
  = list_ascii_of_string s ++ list_ascii_of_string t.
Proof.
  induction s as [|c s IH]; [done|]. rewrite sapp_cons. simpl. by rewrite IH.
Qed.

Lemma pretty_N_char_code (d : N) :
  d < 10 → re.code (pretty_N_char d) - 48 = d.
Proof.
  intros Hd.
  assert (d = 0 ∨ d = 1 ∨ d = 2 ∨ d = 3 ∨ d = 4 ∨ d = 5 ∨ d = 6 ∨ d = 7
          ∨ d = 8 ∨ d = 9) as Hcases by lia.
  repeat (destruct Hcases as [->|Hcases]; [done|]). by subst.
Qed.

Lemma int_pretty_go (x : N) (s : string) :
  foldl int_step 0 (list_ascii_of_string (pretty_N_go x s))
  = foldl int_step x (list_ascii_of_string s).
Proof.
  revert s. induction (N.lt_wf_0 x) as [x _ IH]; intros s.
  assert (x = 0 ∨ 0 < x) as [->|Hx] by lia; [done|].
  rewrite pretty_N_go_step by done. rewrite IH by (by apply N.div_lt).
  cbn [list_ascii_of_string foldl]. f_equal. unfold int_step.
  rewrite pretty_N_char_code by (apply N.mod_lt; lia).
  pose proof (N.div_mod x 10). lia.
Qed.

(** [int(str(n))] is [n]. *)
Lemma int_pretty (n : N) : int (pretty n) = n.
Proof.
  rewrite int_foldl. unfold pretty, pretty_N. case_decide as Hn; [by subst|].
  by rewrite int_pretty_go.
Qed.

Lemma int_zeros (k : nat) (s : string) : int (repeat_char "0" k +:+ s) = int s.
Proof.
  rewrite !int_foldl, chars_app, foldl_app. f_equal.
  induction k as [|k IH]; [done|]. done.
Qed.

Lemma digit_run_zeros (k : nat) (s : string) :
  digit_run s → digit_run (repeat_char "0" k +:+ s).
Proof.
  intros Hs. induction k as [|k IH]; [done|].
  cbn [repeat_char]. rewrite sapp_cons.
  apply digit_run_intro; [done|by apply digit_run_all].
Qed.

(** X15. A file named [<prefix>-<major>.<minor>-ethercat.<ext>] with the
    two numbers written as Python prints them, with or without zeros in
    front, is found as exactly the version (major, minor): writing a
    version into a name and reading the name gives the version back, and
    zeros in front make no other version. *)
Theorem version_name_round_trip (prefix ext : string) (maj min : N)
    (k1 k2 : nat) :
  plain prefix → plain ext →
  filter_versions
    [ prefix +:+ "-" +:+ (repeat_char "0" k1 +:+ pretty maj) +:+ "."
      +:+ (repeat_char "0" k2 +:+ pretty min) +:+ "-ethercat." +:+ ext ]
    prefix ext
  = Ok {[ (maj, min) ]}.
Proof.
  intros Hp He.
  set (smaj := repeat_char "0" k1 +:+ pretty maj).
  set (smin := repeat_char "0" k2 +:+ pretty min).
  set (file := prefix +:+ "-" +:+ smaj +:+ "." +:+ smin +:+ "-ethercat." +:+ ext).
  assert (Hmatch : re.match_ (version_pattern prefix ext) file
                   = Some [smaj; smin]).
  { apply match_version_pattern. exists smaj, smin, "".
    split_and!; [by apply digit_run_zeros, pretty_N_digit_run..|by left| |done].
    unfold file. by rewrite sapp_nil_r. }
  destruct (filter_versions_spec [file] prefix ext Hp He) as (vs & -> & Hin).
  f_equal. apply set_eq. intros v.
  rewrite Hin, elem_of_singleton. setoid_rewrite list_elem_of_singleton.
  split.
  - intros (f & -> & (maj' & min' & Hm & ->)%match_py_match).
    rewrite Hmatch in Hm. injection Hm as <- <-. unfold smaj, smin.
    by rewrite !int_zeros, !int_pretty.
  - intros ->. exists file. split; [done|]. apply match_py_match.
    exists smaj, smin. split; [done|]. unfold smaj, smin.
    by rewrite !int_zeros, !int_pretty.
Qed.

Lemma version_name_round_trip_witness :
  plain "igb_main" ∧ plain "c" ∧
  filter_versions
    [ "igb_main" +:+ "-" +:+ (repeat_char "0" 1 +:+ pretty 6) +:+ "."
      +:+ (repeat_char "0" 0 +:+ pretty 1) +:+ "-ethercat." +:+ "c" ]
    "igb_main" "c"
  = Ok {[ (6, 1) ]}.
Proof.
  split; [exact I|]. split; [exact I|].
  exact (version_name_round_trip "igb_main" "c" 6 1 1 0 I I).
Defined.

(** *** The markdown of a computed table *)

(** X16. The columns of a computed table are 11 characters wide, the
    length of the longest driver name.  When no version label is longer
    than that, every line of the markdown output of the table, header,
    separator and data rows alike, has the same length. *)
Theorem computed_table_aligned (m : gmap KernelVersion (gset string)) :
  let W := get_max_width ("Kernel" :: DRIVERS) in
  let rows := (λ key, (version_label key, mark m key <$> DRIVERS))
              <$> sorted_reverse (map_to_list m).*1 in
  map_Forall (λ v _, (String.length (version_label v) ≤ W)%nat) m →
  W = 11%nat ∧
  dump_markdown (compute_table m)
  = Ok (header_line W "Kernel" DRIVERS +:+ nl
        +:+ separator_line W (List.length DRIVERS)
        +:+ join_all ((λ row, nl +:+ data_line W row) <$> rows)) ∧
  String.length (separator_line W (List.length DRIVERS))
  = String.length (header_line W "Kernel" DRIVERS) ∧
  Forall (λ row, String.length (data_line W row)
                 = String.length (header_line W "Kernel" DRIVERS)) rows.
Proof.
  intros W rows Hlabels.
  assert (HW : W = 11%nat) by (unfold W; rewrite DRIVERS_eq; by vm_compute).
  pose proof (cells_fit ("Kernel" :: DRIVERS)) as Hhead.
  apply Forall_cons in Hhead as [H0 Hhead]. fold W in H0, Hhead.
  pose proof (length_cells_line AlignLeft W "Kernel" DRIVERS H0 Hhead)
    as Hline.
  fold (header_line W "Kernel" DRIVERS) in Hline.
  split_and!.
  - exact HW.
  - apply dump_markdown_compute_table.
  - rewrite Hline. apply length_separator_line.
  - rewrite Hline. apply Forall_fmap, Forall_forall. intros k Hk.
    apply sorted_keys_dom, elem_of_dom in Hk as [s Hs].
    unfold data_line. cbn [compose fst snd].
    rewrite length_cells_line.
    + rewrite length_fmap. reflexivity.
    + exact (Hlabels k s Hs).
    + apply Forall_fmap, Forall_true. intros d. unfold mark. cbn [compose].
      rewrite HW. case_decide; cbn [String.length]; lia.
Qed.

Lemma computed_table_aligned_witness :
  map_Forall (λ v _, (String.length (version_label v)
                      ≤ get_max_width ("Kernel" :: DRIVERS))%nat) demo_dict ∧
  get_max_width ("Kernel" :: DRIVERS) = 11%nat.
Proof.
  assert (H : map_Forall (λ v (_ : gset string),
                (String.length (version_label v)
                 ≤ get_max_width ("Kernel" :: DRIVERS))%nat) demo_dict)
    by (apply (bool_decide_unpack _); by vm_compute).
  split; [exact H|]. exact (proj1 (computed_table_aligned demo_dict H)).
Defined.
